(** * streamlit_app.py: retrieval-augmented Java chatbot

    A shallow embedding of [streamlit_app.py]: the corpus loader
    ([load_data]), the similarity ranker ([cosine_similarity],
    [get_top_k_chunks]), the generation client ([ask_gemini]) and the
    top-level script body (the query cycle and the history rendering).

    Conventions of the embedding.
    - A Python [str] is the list of its Unicode code points.
    - A value decoded by [json.load] / [response.json()] is a [json] tree.
    - A NumPy float64 is a primitive binary64 [float]; a one-dimensional array
      is a [list float], the embedding matrix a list of rows.
    - A Python call either returns or raises: [outcome].
    - The script body runs in a state-and-exception monad over the session
      state and a log of the calls made to the external collaborators. *)

From Stdlib Require Import String Ascii DecimalString.
From Stdlib Require Import ZArith NArith Bool Lia Floats.
From Stdlib Require Import List Permutation Sorted.
Import ListNotations.

Set Warnings "-register-all".

(* ================================================================= *)
(** ** Python values *)

Module Py.

(** A [str]: the sequence of its code points. *)
Definition str := list N.

(** A literal of the source, written with ASCII characters only. *)
Definition lit (s : string) : str := map N_of_ascii (list_ascii_of_string s).

Definition str_eqb (s t : str) : bool :=
  if list_eq_dec N.eq_dec s t then true else false.

(** [needle in hay] for strings. *)
Fixpoint prefixb (p s : str) : bool :=
  match p, s with
  | [], _ => true
  | _ :: _, [] => false
  | a :: p', b :: s' => N.eqb a b && prefixb p' s'
  end.

Fixpoint containsb (needle hay : str) : bool :=
  prefixb needle hay ||
  match hay with
  | [] => false
  | _ :: hay' => containsb needle hay'
  end.

(** [str(n)] for an [int]: decimal digits, with a leading minus sign for a
    negative number. *)
Definition str_of_int (z : Z) : str := lit (NilZero.string_of_int (Z.to_int z)).

(** The exceptions the modelled code can raise. *)
Inductive exn : Type :=
| ValueError          (* np.dot on arrays of different lengths *)
| KeyError            (* d[key] with key absent *)
| IndexError          (* l[i] with i out of range *)
| TypeError           (* subscript on a value that does not support it *)
| AttributeError      (* x.get on a value that is not a dict *)
| JSONDecodeError     (* response.json() on a body that is not JSON *)
| RequestException.   (* requests.post: time-out, connection failure *)

Inductive outcome (A : Type) : Type :=
| Returns (a : A)
| Raises (e : exn).
Arguments Returns {A} a.
Arguments Raises {A} e.

Definition bind {A B} (m : outcome A) (k : A -> outcome B) : outcome B :=
  match m with
  | Returns a => k a
  | Raises e => Raises e
  end.

(** [for x in l: ys.append(f x)], stopping at the first exception. *)
Fixpoint mapM {A B} (f : A -> outcome B) (l : list A) : outcome (list B) :=
  match l with
  | [] => Returns []
  | x :: l' =>
      bind (f x) (fun y => bind (mapM f l') (fun ys => Returns (y :: ys)))
  end.

(** [try: m  except Exception: handler]. *)
Definition try_except {A} (m : outcome A) (handler : A) : outcome A :=
  match m with
  | Returns a => Returns a
  | Raises _ => Returns handler
  end.

(** What [json.load] produces. A [dict] is kept as its list of items; a key
    occurs at most once in a dict built by the decoder, and [dict_get] reads the
    first item with the key. *)
Inductive json : Type :=
| JNone
| JBool (b : bool)
| JInt (z : Z)
| JFloat (f : float)
| JStr (s : str)
| JList (l : list json)
| JDict (d : list (str * json)).

Fixpoint dict_get (key : str) (d : list (str * json)) : option json :=
  match d with
  | [] => None
  | (k, v) :: d' => if str_eqb key k then Some v else dict_get key d'
  end.

(** [key in d]. *)
Definition dict_mem (key : str) (d : list (str * json)) : bool :=
  match dict_get key d with Some _ => true | None => false end.

(** [v[key]] with a string key. *)
Definition getitem_key (v : json) (key : str) : outcome json :=
  match v with
  | JDict d =>
      match dict_get key d with
      | Some x => Returns x
      | None => Raises KeyError
      end
  | _ => Raises TypeError
  end.

(** [v[i]] with a non-negative integer index (the only indices the source
    uses are the literal 0 and positions returned by [np.argsort]). *)
Definition getitem_index (v : json) (i : nat) : outcome json :=
  match v with
  | JList l =>
      match nth_error l i with
      | Some x => Returns x
      | None => Raises IndexError
      end
  | JStr s =>
      match nth_error s i with
      | Some c => Returns (JStr [c])
      | None => Raises IndexError
      end
  | JDict _ => Raises KeyError
  | _ => Raises TypeError
  end.

(** [isinstance(v, str)]. *)
Definition is_str (v : json) : bool :=
  match v with JStr _ => true | _ => false end.

(** [v.get(key, default)]. *)
Definition get_method (v : json) (key : str) (default : json) : outcome json :=
  match v with
  | JDict d =>
      match dict_get key d with
      | Some x => Returns x
      | None => Returns default
      end
  | _ => Raises AttributeError
  end.

(** [l[start:]] for a list of length [n]: a negative [start] counts from the
    end, and the bounds are clipped to [0..n]. *)
Definition slice_from {A} (start : Z) (l : list A) : list A :=
  let n := Z.of_nat (length l) in
  let s := if (start <? 0)%Z then Z.max 0 (start + n) else Z.min start n in
  skipn (Z.to_nat s) l.

(** Python's [str.isspace] on one code point. *)
Definition is_space (c : N) : bool :=
  ((9 <=? c) && (c <=? 13) || (28 <=? c) && (c <=? 32)
   || (c =? 133) || (c =? 160) || (c =? 5760)
   || (8192 <=? c) && (c <=? 8202)
   || (c =? 8232) || (c =? 8233) || (c =? 8239) || (c =? 8287)
   || (c =? 12288))%N.

Fixpoint lstrip (s : str) : str :=
  match s with
  | [] => []
  | c :: s' => if is_space c then lstrip s' else s
  end.

(** [s.strip()]. *)
Definition strip (s : str) : str := rev (lstrip (rev (lstrip s))).

(** Truth value of a string: non-empty. *)
Definition truthy (s : str) : bool :=
  match s with [] => false | _ :: _ => true end.

End Py.

Import Py.
Arguments lit : simpl never.

Declare Scope py_scope.
Delimit Scope py_scope with py.
Notation "x <- m ;; k" := (Py.bind m (fun x => k))
  (at level 61, m at next level, right associativity) : py_scope.
Open Scope py_scope.

(* ================================================================= *)
(** ** NumPy float64 arithmetic

    Arrays are taken to hold float64 values, as the embeddings decoded from
    JSON do, and every operation rounds to float64. The order in which NumPy
    adds the products of a dot product is the BLAS library's (blocked,
    possibly fused with the multiplication); [dot_sum] adds them in index
    order, so on long vectors its last bits can differ from NumPy's. What is
    proved of scores below does not rest on those bits: it concerns vectors
    of different lengths, zero norms, NaN, and the ranking of whatever scores
    come out. *)

Module Np.

Open Scope float_scope.

(** [np.dot a b] on one-dimensional arrays: the sum of the products, in
    index order; arrays of different lengths are not aligned. *)
Definition dot_sum (a b : list float) : float :=
  fold_left (fun acc xy => acc + fst xy * snd xy) (combine a b) 0.

Definition dot (a b : list float) : outcome float :=
  if Nat.eqb (length a) (length b) then Returns (dot_sum a b)
  else Raises ValueError.

(** [np.linalg.norm a] on a one-dimensional real array: [sqrt(a.dot(a))]. *)
Definition linalg_norm (a : list float) : float := sqrt (dot_sum a a).

(** The order NumPy sorts float64 by: numbers by [<], every NaN after every
    number. [lt a b] is NumPy's [a < b || (b != b && a == a)]. *)
Definition lt (a b : float) : bool :=
  (a <? b) || (is_nan b && negb (is_nan a)).

(** [a] may stand before [b] in an ascending NumPy sort. *)
Definition le (a b : float) : bool := negb (lt b a).

(** The outcome of an IEEE comparison read as "less than or equal". *)
Definition cmp_le (c : option comparison) : bool :=
  match c with Some Lt | Some Eq => true | _ => false end.

End Np.

(* ================================================================= *)
(** ** The similarity ranker *)

(** def cosine_similarity(a, b) *)
Definition cosine_similarity (a b : list float) : outcome float :=
  d <- Np.dot a b ;;
  Returns (d / (Np.linalg_norm a * Np.linalg_norm b))%float.

(** [scores[i]] for a position within range. *)
Definition score_at (scores : list float) (i : nat) : float := nth i scores nan.

(** What NumPy documents of [np.argsort(scores)]: the positions of [scores],
    each once, in ascending order of their scores, NaN last. Which of two
    positions with equal scores comes first is left open (the default sort is
    not stable). *)
Definition is_argsort (scores : list float) (idx : list nat) : Prop :=
  Permutation idx (seq 0 (length scores)) /\
  Sorted (fun x y => Np.le x y = true) (map (score_at scores) idx).

(** [c if isinstance(c, str) else c.get("text", "")] *)
Definition chunk_text (c : json) : outcome json :=
  if is_str c then Returns c else get_method c (lit "text") (JStr []).

(** def get_top_k_chunks(query_embedding, k=5)

    [embeddings] and [chunks] are the module-level globals bound by
    [embeddings, chunks = load_data()]; [argsort] stands for [np.argsort]. *)
Section Ranker.

Variable argsort : list float -> list nat.
Variable embeddings : list (list float).
Variable chunks : json.

(** [scores = [cosine_similarity(query_embedding, emb) for emb in embeddings]] *)
Definition all_scores (query_embedding : list float) : outcome (list float) :=
  mapM (fun emb => cosine_similarity query_embedding emb) embeddings.

(** One element of the returned list:
    [(chunks[i] if isinstance(chunks[i], str) else chunks[i].get("text", ""),
      scores[i])] *)
Definition pick (scores : list float) (i : nat) : outcome (json * float) :=
  c <- getitem_index chunks i ;;
  t <- chunk_text c ;;
  match nth_error scores i with
  | Some s => Returns (t, s)
  | None => Raises IndexError
  end.

(** [top_k_idx = np.argsort(scores)[-k:][::-1]] *)
Definition get_top_k_chunks (query_embedding : list float) (k : Z)
  : outcome (list (json * float)) :=
  scores <- all_scores query_embedding ;;
  let top_k_idx := rev (slice_from (- k) (argsort scores)) in
  mapM (pick scores) top_k_idx.

End Ranker.

(** [np.argsort(scores, kind="stable")]: insertion of the positions, an
    instance of [argsort] that can be run. *)
Fixpoint insert_idx (scores : list float) (i : nat) (l : list nat) : list nat :=
  match l with
  | [] => [i]
  | j :: l' =>
      if Np.lt (score_at scores j) (score_at scores i)
      then j :: insert_idx scores i l'
      else i :: l
  end.

Definition argsort_stable (scores : list float) : list nat :=
  fold_right (insert_idx scores) [] (seq 0 (length scores)).

(* ================================================================= *)
(** ** The corpus loader *)

Definition matrix := list (list float).

(** [isinstance(chunks, dict) and "chunks" in chunks] *)
Definition wraps_chunks (chunks : json) : bool :=
  match chunks with
  | JDict d => dict_mem (lit "chunks") d
  | _ => false
  end.

(** def load_data()

    [embeddings_file] is what [np.array(json.load(f))] evaluates to on
    embeddings.json and [chunks_file] what [json.load(f)] evaluates to on
    chunks.json; either raises when the file is missing or malformed. *)
Definition load_data (embeddings_file : outcome matrix)
                     (chunks_file : outcome json) : outcome (matrix * json) :=
  embeddings <- embeddings_file ;;
  chunks <- chunks_file ;;
  chunks <- (if wraps_chunks chunks
             then getitem_key chunks (lit "chunks")
             else Returns chunks) ;;
  Returns (embeddings, chunks).

(* ================================================================= *)
(** ** Session state, external calls and the script monad *)

(** One turn of [st.session_state.chat_history]. *)
Record chat : Type := mkChat {
  question : str;
  answer : json;
  context : str
}.

(** The calls that leave the process. *)
Inductive call : Type :=
| EncodeCall (texts : list str)               (* embedder.encode(texts) *)
| PostCall (url : str) (data : json).         (* requests.post(url, json=data) *)

(** [chat_history] is [None] while the key is absent from the session state;
    [calls] is the log of the external calls, oldest first. *)
Record world : Type := mkWorld {
  chat_history : option (list chat);
  calls : list call
}.

Definition history (w : world) : list chat :=
  match chat_history w with Some h => h | None => [] end.

Definition M (A : Type) : Type := world -> outcome A * world.

Definition retM {A} (a : A) : M A := fun w => (Returns a, w).

Definition bindM {A B} (m : M A) (k : A -> M B) : M B :=
  fun w =>
    match m w with
    | (Returns a, w') => k a w'
    | (Raises e, w') => (Raises e, w')
    end.

Definition liftM {A} (o : outcome A) : M A := fun w => (o, w).

Definition logM (c : call) : M unit :=
  fun w => (Returns tt, mkWorld (chat_history w) (calls w ++ [c])).

Notation "x <~ m ;; k" := (bindM m (fun x => k))
  (at level 61, m at next level, right associativity) : py_scope.
Notation "m ;;; k" := (bindM m (fun _ => k))
  (at level 61, right associativity) : py_scope.

(** An HTTP response: its status and what [response.json()] evaluates to. *)
Record response : Type := mkResponse {
  status_code : Z;
  json_body : outcome json
}.

(** What Streamlit is asked to draw. *)
Inductive widget : Type :=
| StError (body : str)
| Title (body : str)
| Form (key : str) (children : list widget)
| TextArea (label : str)
| SubmitButton (label : str)
| Expander (label : str) (children : list widget)
| Markdown (body : str)
| Code (body : str) (language : str)
| Info (body : str).

Definition nl : str := [10%N].

(** [sep.join(parts)] *)
Fixpoint join (sep : str) (parts : list str) : str :=
  match parts with
  | [] => []
  | [p] => p
  | p :: rest => p ++ sep ++ join sep rest
  end.

(** [enumerate(l)] *)
Definition enumerate {A} (l : list A) : list (nat * A) :=
  combine (seq 0 (length l)) l.

Definition error_unexpected_format : str :=
  lit "[Error: Unexpected Gemini API response format]".

Definition error_status (code : Z) : str :=
  lit "[Error: Gemini API returned " ++ str_of_int code ++ lit "]".

Definition gemini_endpoint : str :=
  lit "https://generativelanguage.googleapis.com/v1beta/models/gemini-1.5-flash:generateContent?key=".

(** [url = "https://...?key=" + GOOGLE_API_KEY] *)
Definition request_url (api_key : option str) : outcome str :=
  match api_key with
  | Some key => Returns (gemini_endpoint ++ key)
  | None => Raises TypeError
  end.

(** [data = {"contents": [{"parts": [{"text": prompt}]}]}] *)
Definition request_data (prompt : str) : json :=
  JDict [(lit "contents",
          JList [JDict [(lit "parts",
                         JList [JDict [(lit "text", JStr prompt)]])]])].

(** The world after one request for [prompt]: the call is logged, the
    history kept. *)
Definition posted (key prompt : str) (w : world) : world :=
  mkWorld (chat_history w)
          (calls w ++ [PostCall (gemini_endpoint ++ key) (request_data prompt)]).

Section App.

(** [os.getenv("GOOGLE_API_KEY")] *)
Variable GOOGLE_API_KEY : option str.
(** [embedder.encode]: one vector per text. *)
Variable encode : list str -> matrix.
(** [requests.post(url, headers=headers, json=data, timeout=30)] *)
Variable post : str -> json -> outcome response.
(** [f"{score:.4f}"] and [str(v)] for a value that is not a string. *)
Variable format_4f : float -> str.
Variable repr : json -> str.

Variable argsort : list float -> list nat.
Variable embeddings : matrix.
Variable chunks : json.

(** [f"{v}"] *)
Definition format_value (v : json) : str :=
  match v with JStr s => s | _ => repr v end.

(** def ask_gemini(prompt) *)
Definition ask_gemini (prompt : str) : M json :=
  url <~ liftM (request_url GOOGLE_API_KEY) ;;
  let data := request_data prompt in
  logM (PostCall url data) ;;;
  response <~ liftM (post url data) ;;
  if (status_code response =? 200)%Z then
    result <~ liftM (json_body response) ;;
    liftM (try_except
             (candidates <- getitem_key result (lit "candidates") ;;
              candidate <- getitem_index candidates 0 ;;
              content <- getitem_key candidate (lit "content") ;;
              parts <- getitem_key content (lit "parts") ;;
              part <- getitem_index parts 0 ;;
              getitem_key part (lit "text"))
             (JStr error_unexpected_format))
  else
    retM (JStr (error_status (status_code response))).

(** The context block of one retrieved chunk:
    [f"[Context {i+1} - Similarity: {score:.4f}]\n{chunk}"] *)
Definition context_entry (e : nat * (json * float)) : str :=
  let '(i, (chunk, score)) := e in
  lit "[Context " ++ str_of_int (Z.of_nat (i + 1)) ++ lit " - Similarity: "
    ++ format_4f score ++ lit "]" ++ nl ++ format_value chunk.

Definition make_context (top_chunks : list (json * float)) : str :=
  join (nl ++ nl ++ lit "---" ++ nl ++ nl)
       (map context_entry (enumerate top_chunks)).

Definition make_prompt (context query : str) : str :=
  lit "You are an expert Java programming tutor. Answer the following question based ONLY on the provided context from the Java textbook."
  ++ nl ++ nl ++ lit "CONTEXT FROM JAVA TEXTBOOK:" ++ nl ++ context
  ++ nl ++ nl ++ lit "QUESTION: " ++ query
  ++ nl ++ nl ++ lit "INSTRUCTIONS:"
  ++ nl ++ lit "- Provide a comprehensive answer based solely on the context"
  ++ nl ++ lit "- Include code examples in markdown format if present"
  ++ nl ++ lit "- If the context lacks sufficient information, clearly state this"
  ++ nl ++ lit "- Structure the answer with clear explanations and examples"
  ++ nl ++ lit "- Use proper Java terminology"
  ++ nl ++ nl ++ lit "ANSWER:".

(** The body of [if submitted and query.strip():] *)
Definition query_cycle (query : str) : M unit :=
  logM (EncodeCall [query]) ;;;
  query_embedding <~ liftM (match encode [query] with
                            | row :: _ => Returns row
                            | [] => Raises IndexError
                            end) ;;
  top_chunks <~
    liftM (get_top_k_chunks argsort embeddings chunks query_embedding 5) ;;
  let context := make_context top_chunks in
  let prompt := make_prompt context query in
  answer <~ ask_gemini prompt ;;
  fun w =>
    (Returns tt,
     mkWorld (Some (history w ++ [mkChat query answer context])) (calls w)).

(** [if "chat_history" not in st.session_state: ... = []] *)
Definition init_history : M unit :=
  fun w => (Returns tt, mkWorld (Some (history w)) (calls w)).

(** One pass of [for chat in reversed(st.session_state.chat_history)] *)
Definition render_chat (c : chat) : widget :=
  Expander (lit "Q: " ++ question c)
    [ Markdown (lit "**A:**" ++ nl ++ format_value (answer c));
      Expander (lit "Show context") [Code (context c) (lit "markdown")] ].

Definition render_history (h : list chat) : list widget :=
  map render_chat (rev h).

Definition page_header : list widget :=
  [ Title (128269%N :: lit " Java RAG Chatbot (Streamlit)");
    Form (lit "ask_form")
      [ TextArea (lit "Ask a question about Java:");
        SubmitButton (128640%N :: lit " Ask Question") ] ].

Definition page_footer : list widget :=
  [ Info (128161%N :: lit " Tip: You can ask about Java concepts, code, or textbook content. Each answer is based only on the most relevant textbook chunks.") ].

(** One run of the script, from the credential check to the tip, on the
    form input [(submitted, query)]. [st.stop()] ends the run. *)
Definition script (submitted : bool) (query : str) : M (list widget) :=
  match GOOGLE_API_KEY with
  | None | Some [] =>
      retM [StError (lit "GOOGLE_API_KEY is not set. Please add it to your .env file and restart the app.")]
  | Some _ =>
      init_history ;;;
      (if submitted && truthy (strip query)
       then query_cycle query else retM tt) ;;;
      fun w =>
        (Returns (page_header ++ render_history (history w) ++ page_footer),
         w)
  end.

End App.

(* ================================================================= *)
(** ** What the specification names *)

Module Spec.

Open Scope float_scope.

(** The sum of [f 0], ..., [f (n-1)], in that order. *)
Fixpoint sum_upto (n : nat) (f : nat -> float) : float :=
  match n with
  | O => 0
  | S m => sum_upto m f + f m
  end.

(** Dot product and Euclidean norm, componentwise. *)
Definition dot_product (a b : list float) : float :=
  sum_upto (length a) (fun i => nth i a 0 * nth i b 0).

Definition euclidean_norm (a : list float) : float :=
  sqrt (sum_upto (length a) (fun i => nth i a 0 * nth i a 0)).

(** A score that is a number. *)
Definition well_defined (s : float) : Prop := is_nan s = false.

(** Scores from highest to lowest: no score is below a later one. *)
Definition descending (scores : list float) : Prop :=
  StronglySorted (fun x y => (y <=? x) = true) scores.

(** A chunk element: a plain string or a record. *)
Definition is_chunk (c : json) : bool :=
  match c with JStr _ | JDict _ => true | _ => false end.

(** The text of a chunk element: the string itself, or the record's "text"
    field, the empty string when the field is absent. *)
Definition text_of (c : json) : json :=
  match c with
  | JDict d =>
      match dict_get (lit "text") d with Some t => t | None => JStr [] end
  | _ => c
  end.

(** The result entry for corpus position [i]: its chunk text with its score. *)
Definition entry (cs : list json) (scores : list float) (i : nat)
  : json * float :=
  (text_of (nth i cs JNone), score_at scores i).

(** The generated text of a response body,
    [candidates[0].content.parts[0].text], when every field is there. *)
Definition expected_text (body : json) : option json :=
  match body with
  | JDict d =>
    match dict_get (lit "candidates") d with
    | Some (JList (JDict candidate :: _)) =>
      match dict_get (lit "content") candidate with
      | Some (JDict content) =>
        match dict_get (lit "parts") content with
        | Some (JList (JDict part :: _)) => dict_get (lit "text") part
        | _ => None
        end
      | _ => None
      end
    | _ => None
    end
  | _ => None
  end.

(** A query that is empty or made of whitespace only. *)
Definition blank (query : str) : Prop :=
  Forall (fun c => is_space c = true) query.

End Spec.

(* ================================================================= *)
(** ** A small corpus and stub collaborators, to run the definitions on *)

Module Demo.

Open Scope float_scope.

Definition embeddings : matrix := [[1; 0]; [0; 1]; [1; 1]].
Definition chunk_list : list json :=
  [JStr (lit "A"); JDict [(lit "text", JStr (lit "B"))]; JStr (lit "C")].
Definition chunks : json := JList chunk_list.

Definition query_embedding : list float := [1; 0].

Definition scores : list float :=
  Eval vm_compute in
    match all_scores embeddings query_embedding with
    | Returns s => s
    | Raises _ => []
    end.

(** A corpus whose first embedding is the zero vector. *)
Definition embeddings_zero : matrix := [[0; 0]; [1; 0]].
Definition chunk_list_zero : list json := [JStr (lit "A"); JStr (lit "B")].
Definition chunks_zero : json := JList chunk_list_zero.

Definition key : option str := Some (lit "k").
Definition encode (texts : list str) : matrix := map (fun _ => query_embedding) texts.
Definition post_500 (url : str) (data : json) : outcome response :=
  Returns (mkResponse 500 (Raises JSONDecodeError)).
Definition post_empty_object (url : str) (data : json) : outcome response :=
  Returns (mkResponse 200 (Returns (JDict []))).
(** Stand-ins for Python's number and value formatting. *)
Definition format_4f (s : float) : str := lit "?".
Definition repr (v : json) : str := lit "?".

Definition world0 : world := mkWorld None [].

Definition query : str := lit "What is a class?".
Definition blank_query : str := [32%N; 9%N; 10%N; 160%N].

(** One submitted run against an API that answers 500. *)
Definition run_500 : outcome (list widget) * world :=
  script key encode post_500 format_4f repr argsort_stable embeddings chunks
         true query world0.

Definition page_500 : list widget :=
  match fst run_500 with Returns page => page | Raises _ => [] end.

End Demo.

(* ================================================================= *)
(** ** The session: one script run per interaction *)

(** What one interaction brings: the form input, and how the generation API
    answers during the run it triggers. *)
Record interaction : Type := mkInteraction {
  submitted_of : bool;
  query_of : str;
  post_of : str -> json -> outcome response
}.

(** Streamlit runs the script from the top on every interaction;
    [st.session_state] lives on from run to run, also after a run that ended
    in an exception. *)
Fixpoint run_session
    (api_key : option str) (encode : list str -> matrix)
    (format_4f : float -> str) (repr : json -> str)
    (argsort : list float -> list nat) (embeddings : matrix) (chunks : json)
    (inputs : list interaction) (w : world) : world :=
  match inputs with
  | [] => w
  | i :: rest =>
      run_session api_key encode format_4f repr argsort embeddings chunks rest
        (snd (script api_key encode (post_of i) format_4f repr argsort
                     embeddings chunks (submitted_of i) (query_of i) w))
  end.

(** Another runnable [argsort]: insertion that moves a position past the
    positions it ties with, so that tied positions come out in descending
    order where [argsort_stable] gives them in ascending order. *)
Fixpoint insert_idx_after (scores : list float) (i : nat) (l : list nat)
  : list nat :=
  match l with
  | [] => [i]
  | j :: l' =>
      if Np.le (score_at scores j) (score_at scores i)
      then j :: insert_idx_after scores i l'
      else i :: l
  end.

Definition argsort_mirror (scores : list float) : list nat :=
  fold_right (insert_idx_after scores) [] (seq 0 (length scores)).

(** More stub collaborators. *)
Module Sample.

Definition generated : json := JStr (lit "A class is a blueprint.").

Definition body_ok : json :=
  JDict [(lit "candidates",
          JList [JDict [(lit "content",
                         JDict [(lit "parts",
                                 JList [JDict [(lit "text", generated)]])])]])].

Definition post_ok (url : str) (data : json) : outcome response :=
  Returns (mkResponse 200 (Returns body_ok)).
Definition post_timeout (url : str) (data : json) : outcome response :=
  Raises RequestException.
Definition post_not_json (url : str) (data : json) : outcome response :=
  Returns (mkResponse 200 (Raises JSONDecodeError)).

(** A chunks file that is a record under another key. *)
Definition chunks_other_key : list (str * json) :=
  [(lit "data", Demo.chunks)].

(** A session of five interactions. *)
Definition inputs : list interaction :=
  [ mkInteraction true Demo.query post_ok;
    mkInteraction true Demo.blank_query post_ok;
    mkInteraction true Demo.query post_timeout;
    mkInteraction false Demo.query post_ok;
    mkInteraction true Demo.query Demo.post_500 ].

End Sample.

(* ================================================================= *)
(** * Properties *)

(** ** Python values *)

Lemma str_eqb_eq (s t : str) : str_eqb s t = true <-> s = t.
Proof.
  unfold str_eqb; destruct (list_eq_dec N.eq_dec s t); split; congruence.
Qed.

Lemma str_eqb_refl (s : str) : str_eqb s s = true.
Proof. now apply str_eqb_eq. Qed.

Lemma prefixb_app (p s : str) : prefixb p (p ++ s) = true.
Proof.
  induction p as [|a p IH]; simpl; [reflexivity|].
  now rewrite N.eqb_refl, IH.
Qed.

Lemma containsb_app (needle before after : str) :
  containsb needle (before ++ needle ++ after) = true.
Proof.
  induction before as [|c before IH]; simpl.
  - destruct (needle ++ after) eqn:E; simpl; rewrite <- ?E, prefixb_app;
      reflexivity.
  - rewrite IH. apply orb_true_r.
Qed.

Lemma mapM_total {A B} (f : A -> outcome B) (g : A -> B) (l : list A) :
  (forall x, In x l -> f x = Returns (g x)) ->
  mapM f l = Returns (map g l).
Proof.
  induction l as [|x l IH]; simpl; intros H; [reflexivity|].
  rewrite (H x) by now left. simpl.
  rewrite IH by (intros; apply H; now right). reflexivity.
Qed.

Lemma mapM_length {A B} (f : A -> outcome B) (l : list A) (ys : list B) :
  mapM f l = Returns ys -> length ys = length l.
Proof.
  revert ys; induction l as [|x l IH]; simpl; intros ys H.
  - now inversion H.
  - destruct (f x); simpl in H; [|discriminate].
    destruct (mapM f l); simpl in H; [|discriminate].
    inversion H; subst; simpl. f_equal. now apply IH.
Qed.

(** [l[-k:]] with [1 <= k <= len(l)]: the last [k] elements. *)
Lemma slice_last {A} (k : Z) (l : list A) :
  (1 <= k <= Z.of_nat (length l))%Z ->
  slice_from (- k) l = skipn (length l - Z.to_nat k) l.
Proof.
  intros H. unfold slice_from.
  destruct (Z.ltb_spec (- k) 0); [|lia].
  f_equal. lia.
Qed.

(** [l[-k:]] with [k > len(l)]: the whole list. *)
Lemma slice_all {A} (k : Z) (l : list A) :
  (Z.of_nat (length l) < k)%Z -> slice_from (- k) l = l.
Proof.
  intros H. unfold slice_from.
  destruct (Z.ltb_spec (- k) 0); [|lia].
  replace (Z.to_nat _) with 0%nat by lia. reflexivity.
Qed.

(** ** Sorted lists *)

Lemma StronglySorted_skipn {A} (R : A -> A -> Prop) (n : nat) (l : list A) :
  StronglySorted R l -> StronglySorted R (skipn n l).
Proof.
  revert l; induction n as [|n IH]; intros l H; [exact H|].
  destruct l as [|x l]; [exact H|]. simpl.
  apply IH. now apply StronglySorted_inv in H.
Qed.

Lemma StronglySorted_snoc {A} (R : A -> A -> Prop) (l : list A) (x : A) :
  StronglySorted R l -> Forall (fun y => R y x) l ->
  StronglySorted R (l ++ [x]).
Proof.
  induction 1 as [|y l Hs IH Hy]; intros Hx; simpl.
  - repeat constructor.
  - inversion Hx; subst. constructor; [now apply IH|].
    apply Forall_app; split; [assumption|now constructor].
Qed.

Lemma StronglySorted_rev {A} (R : A -> A -> Prop) (l : list A) :
  StronglySorted R l -> StronglySorted (fun x y => R y x) (rev l).
Proof.
  induction 1 as [|x l Hs IH Hx]; simpl; [constructor|].
  apply StronglySorted_snoc; [assumption|].
  apply Forall_rev. exact Hx.
Qed.

Lemma StronglySorted_weaken {A} (P : A -> Prop) (R R' : A -> A -> Prop)
      (l : list A) :
  Forall P l -> (forall x y, P x -> P y -> R x y -> R' x y) ->
  StronglySorted R l -> StronglySorted R' l.
Proof.
  intros HP HR. induction 1 as [|x l Hs IH Hx]; [constructor|].
  inversion HP as [|? ? Px Pl]; subst. constructor; [now apply IH|].
  rewrite Forall_forall in *. intros y Hy. apply HR; auto.
Qed.

Lemma StronglySorted_app_inv {A} (R : A -> A -> Prop) (l1 l2 : list A) :
  StronglySorted R (l1 ++ l2) ->
  forall x y, In x l1 -> In y l2 -> R x y.
Proof.
  induction l1 as [|a l1 IH]; simpl; intros H x y Hx Hy; [contradiction|].
  apply StronglySorted_inv in H. destruct H as [Hs Ha].
  destruct Hx as [->|Hx].
  - rewrite Forall_forall in Ha. apply Ha, in_or_app. now right.
  - now apply IH.
Qed.

(** ** The order on float64 scores *)

Module FloatOrder.

Open Scope float_scope.

Ltac pos_cmp :=
  repeat match goal with
  | |- context [PosDef.Pos.compare_cont Eq ?a ?b] =>
      change (PosDef.Pos.compare_cont Eq a b) with (Pos.compare a b)
  end.

Ltac cmp_cases :=
  repeat match goal with
  | |- context [Z.compare ?a ?b] => destruct (Z.compare_spec a b)
  | |- context [Pos.compare ?a ?b] => destruct (Pos.compare_spec a b)
  end.

Lemma SFcompare_antisym x y :
  SFcompare y x = option_map CompOpp (SFcompare x y).
Proof.
  destruct x as [sx|sx| |sx mx ex], y as [sy|sy| |sy my ey]; simpl;
    try reflexivity;
    try (destruct sx, sy; reflexivity);
    try (destruct sx; reflexivity); try (destruct sy; reflexivity).
  pos_cmp.
  destruct sx, sy; simpl; try reflexivity;
    cmp_cases; simpl; try reflexivity; lia.
Qed.

Lemma SFcompare_refl x : x <> S754_nan -> SFcompare x x = Some Eq.
Proof.
  destruct x as [s|s| |s m e]; simpl; intros H; try congruence.
  - destruct s; reflexivity.
  - pos_cmp.
    destruct s; rewrite Z.compare_refl, Pos.compare_refl; reflexivity.
Qed.

Lemma SFcompare_None x y :
  SFcompare x y = None -> x = S754_nan \/ y = S754_nan.
Proof.
  destruct x as [sx|sx| |sx mx ex], y as [sy|sy| |sy my ey]; simpl;
    auto; discriminate.
Qed.

Lemma SFcompare_le_trans x y z :
  Np.cmp_le (SFcompare x y) = true -> Np.cmp_le (SFcompare y z) = true ->
  Np.cmp_le (SFcompare x z) = true.
Proof.
  destruct x as [sx|sx| |sx mx ex], y as [sy|sy| |sy my ey],
           z as [sz|sz| |sz mz ez];
    simpl; try discriminate; try reflexivity;
    try (destruct sx; simpl; try discriminate; try reflexivity);
    try (destruct sy; simpl; try discriminate; try reflexivity);
    try (destruct sz; simpl; try discriminate; try reflexivity);
    pos_cmp; cmp_cases; simpl; try discriminate; try reflexivity; lia.
Qed.

Lemma is_nan_SF x : is_nan x = true <-> Prim2SF x = S754_nan.
Proof.
  unfold is_nan. rewrite eqb_spec. unfold SFeqb. split.
  - intros H. destruct (Prim2SF x) eqn:E; try reflexivity;
      rewrite SFcompare_refl in H by discriminate; discriminate.
  - intros ->. reflexivity.
Qed.

Lemma not_nan_SF x : is_nan x = false <-> Prim2SF x <> S754_nan.
Proof.
  rewrite <- is_nan_SF. destruct (is_nan x); split; congruence.
Qed.

Lemma leb_cmp a b : (a <=? b) = Np.cmp_le (SFcompare (Prim2SF a) (Prim2SF b)).
Proof.
  rewrite leb_spec. unfold SFleb, Np.cmp_le.
  destruct (SFcompare _ _) as [[| |]|]; reflexivity.
Qed.

(** IEEE [<=] is transitive (a true comparison has no NaN operand). *)
Lemma leb_trans a b c :
  (a <=? b) = true -> (b <=? c) = true -> (a <=? c) = true.
Proof. rewrite !leb_cmp. apply SFcompare_le_trans. Qed.

(** On numbers, [b < a] is the negation of [a <= b]. *)
Lemma ltb_negb_leb a b :
  is_nan a = false -> is_nan b = false -> (b <? a) = negb (a <=? b).
Proof.
  rewrite !not_nan_SF, ltb_spec, leb_spec. intros Ha Hb.
  unfold SFltb, SFleb. rewrite (SFcompare_antisym (Prim2SF a) (Prim2SF b)).
  destruct (SFcompare (Prim2SF a) (Prim2SF b)) as [[| |]|] eqn:E;
    try reflexivity.
  apply SFcompare_None in E. tauto.
Qed.

Lemma ltb_nan_l a b : is_nan a = true -> (a <? b) = false.
Proof. rewrite is_nan_SF, ltb_spec. intros ->. reflexivity. Qed.

Lemma ltb_nan_r a b : is_nan b = true -> (a <? b) = false.
Proof.
  rewrite is_nan_SF, ltb_spec. intros ->.
  unfold SFltb. destruct (Prim2SF a); reflexivity.
Qed.

(** NumPy's order on numbers is IEEE [<=]. *)
Lemma np_le_defined a b :
  is_nan a = false -> is_nan b = false -> Np.le a b = (a <=? b).
Proof.
  intros Ha Hb. unfold Np.le, Np.lt.
  rewrite (ltb_negb_leb a b Ha Hb), Ha, andb_false_l, orb_false_r.
  apply negb_involutive.
Qed.

(** A NaN stands only before another NaN ... *)
Lemma np_le_nan_l a b : is_nan a = true -> Np.le a b = is_nan b.
Proof.
  intros Ha. unfold Np.le, Np.lt.
  rewrite (ltb_nan_r b a Ha), Ha. simpl. apply negb_involutive.
Qed.

(** ... and after everything. *)
Lemma np_le_nan_r a b : is_nan b = true -> Np.le a b = true.
Proof.
  intros Hb. unfold Np.le, Np.lt.
  rewrite (ltb_nan_l b a Hb), Hb. simpl. rewrite andb_false_r. reflexivity.
Qed.

Lemma np_le_total a b : Np.le a b = true \/ Np.le b a = true.
Proof.
  destruct (is_nan a) eqn:Ha; [right; now apply np_le_nan_r|].
  destruct (is_nan b) eqn:Hb; [left; now apply np_le_nan_r|].
  rewrite !np_le_defined, !leb_cmp by assumption.
  apply not_nan_SF in Ha, Hb.
  rewrite (SFcompare_antisym (Prim2SF a) (Prim2SF b)).
  destruct (SFcompare (Prim2SF a) (Prim2SF b)) as [[| |]|] eqn:E; simpl; auto.
  apply SFcompare_None in E. tauto.
Qed.

Lemma np_le_trans a b c :
  Np.le a b = true -> Np.le b c = true -> Np.le a c = true.
Proof.
  destruct (is_nan c) eqn:Hc; [intros; now apply np_le_nan_r|].
  destruct (is_nan b) eqn:Hb.
  { intros _ H. rewrite (np_le_nan_l b c Hb) in H. congruence. }
  destruct (is_nan a) eqn:Ha.
  { intros H _. rewrite (np_le_nan_l a b Ha) in H. congruence. }
  rewrite !np_le_defined by assumption. apply leb_trans.
Qed.

Lemma np_lt_le a b : Np.lt a b = true -> Np.le a b = true.
Proof.
  intros H. destruct (np_le_total a b) as [|H']; [assumption|].
  unfold Np.le in H'. rewrite H in H'. discriminate.
Qed.

End FloatOrder.

(** ** The similarity ranker *)

Lemma slice_from_map {A B} (f : A -> B) (start : Z) (l : list A) :
  slice_from start (map f l) = map f (slice_from start l).
Proof. unfold slice_from. now rewrite length_map, skipn_map. Qed.

Lemma slice_from_In {A} (start : Z) (l : list A) (x : A) :
  In x (slice_from start l) -> In x l.
Proof.
  unfold slice_from. intros H.
  rewrite <- (firstn_skipn (Z.to_nat
    (if (start <? 0)%Z then Z.max 0 (start + Z.of_nat (length l))
     else Z.min start (Z.of_nat (length l)))) l).
  apply in_or_app. now right.
Qed.

Lemma slice_from_NoDup {A} (start : Z) (l : list A) :
  NoDup l -> NoDup (slice_from start l).
Proof.
  unfold slice_from. intros H.
  rewrite <- (firstn_skipn (Z.to_nat
    (if (start <? 0)%Z then Z.max 0 (start + Z.of_nat (length l))
     else Z.min start (Z.of_nat (length l)))) l) in H.
  now apply NoDup_app_remove_l in H.
Qed.

#[local] Instance np_le_Transitive :
  RelationClasses.Transitive (fun x y => Np.le x y = true).
Proof. intros x y z. apply FloatOrder.np_le_trans. Qed.

Section RankerFacts.

Variable argsort : list float -> list nat.
Hypothesis argsort_ok : forall s, is_argsort s (argsort s).
Variable scores : list float.

Lemma argsort_length : length (argsort scores) = length scores.
Proof.
  destruct (argsort_ok scores) as [Hp _].
  rewrite (Permutation_length Hp). apply length_seq.
Qed.

Lemma argsort_lt (i : nat) : In i (argsort scores) -> (i < length scores)%nat.
Proof.
  destruct (argsort_ok scores) as [Hp _]. intros Hi.
  apply (Permutation_in _ Hp) in Hi. apply in_seq in Hi. lia.
Qed.

Lemma argsort_NoDup : NoDup (argsort scores).
Proof.
  destruct (argsort_ok scores) as [Hp _].
  apply (Permutation_NoDup (Permutation_sym Hp)), seq_NoDup.
Qed.

(** The selected scores run from last to first in NumPy's order. *)
Lemma selected_scores_ranked (k : Z) :
  StronglySorted (fun x y => Np.le y x = true)
    (rev (slice_from (- k) (map (score_at scores) (argsort scores)))).
Proof.
  destruct (argsort_ok scores) as [_ Hs].
  apply Sorted_StronglySorted in Hs; [|exact np_le_Transitive].
  apply (StronglySorted_rev (fun x y => Np.le x y = true)).
  unfold slice_from. now apply StronglySorted_skipn.
Qed.

Lemma selected_scores_defined (k : Z) :
  Forall Spec.well_defined scores ->
  Forall Spec.well_defined
    (rev (slice_from (- k) (map (score_at scores) (argsort scores)))).
Proof.
  intros Hd. rewrite Forall_forall in *. intros x Hx.
  apply in_rev in Hx. apply slice_from_In in Hx.
  apply in_map_iff in Hx. destruct Hx as [i [<- Hi]].
  apply Hd. unfold score_at. apply nth_In. now apply argsort_lt.
Qed.

Lemma selected_scores_descending (k : Z) :
  Forall Spec.well_defined scores ->
  Spec.descending
    (rev (slice_from (- k) (map (score_at scores) (argsort scores)))).
Proof.
  intros Hd. unfold Spec.descending.
  apply (StronglySorted_weaken Spec.well_defined
           (fun x y => Np.le y x = true)).
  - now apply selected_scores_defined.
  - intros x y Hx Hy H. now rewrite <- FloatOrder.np_le_defined.
  - apply selected_scores_ranked.
Qed.

(** No score left out is above a selected one (in NumPy's order). *)
Lemma selected_dominate (k : Z) (i j : nat) :
  In i (slice_from (- k) (argsort scores)) ->
  (j < length scores)%nat ->
  ~ In j (slice_from (- k) (argsort scores)) ->
  Np.le (score_at scores j) (score_at scores i) = true.
Proof.
  destruct (argsort_ok scores) as [Hp Hs].
  apply Sorted_StronglySorted in Hs; [|exact np_le_Transitive].
  unfold slice_from.
  set (m := Z.to_nat _). intros Hi Hj Hnot.
  rewrite <- (firstn_skipn m (argsort scores)), map_app in Hs.
  apply (StronglySorted_app_inv _ _ _ Hs); [|now apply in_map].
  apply in_map.
  assert (Hin : In j (argsort scores)).
  { apply (Permutation_in _ (Permutation_sym Hp)), in_seq. lia. }
  rewrite <- (firstn_skipn m (argsort scores)) in Hin.
  apply in_app_or in Hin. tauto.
Qed.

Variable embeddings : matrix.
Variable cs : list json.
Variable q : list float.

Hypothesis Hscores : all_scores embeddings q = Returns scores.
Hypothesis Hlen : length cs = length embeddings.
Hypothesis Hchunks : Forall (fun c => Spec.is_chunk c = true) cs.

Lemma scores_length : length scores = length embeddings.
Proof. exact (mapM_length _ _ _ Hscores). Qed.

Lemma pick_entry (i : nat) :
  (i < length scores)%nat ->
  pick (JList cs) scores i = Returns (Spec.entry cs scores i).
Proof.
  intros Hi. unfold pick, Spec.entry, score_at. simpl.
  assert (Hc : (i < length cs)%nat) by (rewrite Hlen, <- scores_length; exact Hi).
  rewrite (nth_error_nth' cs JNone Hc). simpl.
  assert (Hk : Spec.is_chunk (nth i cs JNone) = true).
  { rewrite Forall_forall in Hchunks. apply Hchunks, nth_In, Hc. }
  rewrite (nth_error_nth' scores nan Hi).
  destruct (nth i cs JNone) as [| | | | s | |d]; try discriminate; simpl.
  - reflexivity.
  - unfold chunk_text. simpl. destruct (dict_get _ d); reflexivity.
Qed.

(** The call returns one entry per selected position, in selection order. *)
Lemma top_k_returns (k : Z) :
  get_top_k_chunks argsort embeddings (JList cs) q k =
  Returns (map (Spec.entry cs scores)
               (rev (slice_from (- k) (argsort scores)))).
Proof.
  unfold get_top_k_chunks. rewrite Hscores. simpl.
  apply mapM_total. intros i Hi. apply pick_entry, argsort_lt.
  apply in_rev in Hi. now apply slice_from_In in Hi.
Qed.

Lemma selected_scores (k : Z) :
  map snd (map (Spec.entry cs scores)
               (rev (slice_from (- k) (argsort scores)))) =
  rev (slice_from (- k) (map (score_at scores) (argsort scores))).
Proof.
  rewrite map_map. simpl. rewrite slice_from_map, map_rev. reflexivity.
Qed.

End RankerFacts.

(** ** The stable argsort is an argsort *)

Lemma insert_idx_perm (scores : list float) (i : nat) (l : list nat) :
  Permutation (insert_idx scores i l) (i :: l).
Proof.
  induction l as [|j l IH]; simpl; [apply Permutation_refl|].
  destruct (Np.lt _ _); [|apply Permutation_refl].
  apply (perm_trans (perm_skip j IH)). apply perm_swap.
Qed.

Lemma insert_idx_sorted (scores : list float) (i : nat) (l : list nat) :
  Sorted (fun x y => Np.le x y = true) (map (score_at scores) l) ->
  Sorted (fun x y => Np.le x y = true)
         (map (score_at scores) (insert_idx scores i l)).
Proof.
  induction l as [|j l IH]; simpl; intros Hs.
  - repeat constructor.
  - destruct (Np.lt (score_at scores j) (score_at scores i)) eqn:Hlt.
    + apply Sorted_inv in Hs. destruct Hs as [Hs Hhd].
      simpl. constructor; [now apply IH|].
      destruct l as [|j' l]; simpl.
      * constructor. now apply FloatOrder.np_lt_le.
      * destruct (Np.lt (score_at scores j') (score_at scores i)); simpl.
        -- constructor. now inversion Hhd.
        -- constructor. now apply FloatOrder.np_lt_le.
    + simpl. constructor; [exact Hs|].
      constructor. unfold Np.le. now rewrite Hlt.
Qed.

Lemma argsort_stable_ok (scores : list float) :
  is_argsort scores (argsort_stable scores).
Proof.
  unfold is_argsort, argsort_stable.
  generalize (seq 0 (length scores)) as l.
  induction l as [|i l [IHp IHs]]; simpl.
  - split; constructor.
  - split.
    + apply (perm_trans (insert_idx_perm scores i _)). now apply perm_skip.
    + now apply insert_idx_sorted.
Qed.

(** ** Top-K selection *)

(** Whatever [k] is, on a well-formed corpus the call returns the entries of
    the selected positions, each position once; with scores that are all
    numbers they are in non-increasing score order. *)
Lemma top_k_ranked
    (argsort : list float -> list nat) (embeddings : matrix)
    (cs : list json) (q scores : list float) (k : Z) :
  (forall s, is_argsort s (argsort s)) ->
  length cs = length embeddings ->
  Forall (fun c => Spec.is_chunk c = true) cs ->
  all_scores embeddings q = Returns scores ->
  let positions := rev (slice_from (- k) (argsort scores)) in
  get_top_k_chunks argsort embeddings (JList cs) q k
    = Returns (map (Spec.entry cs scores) positions) /\
  NoDup positions /\
  Forall (fun i => (i < length embeddings)%nat) positions /\
  (Forall Spec.well_defined scores ->
   Spec.descending (map snd (map (Spec.entry cs scores) positions))).
Proof.
  intros Hargsort Hlen Hchunks Hscores positions.
  pose proof (scores_length scores embeddings q Hscores) as Hn.
  split; [now apply top_k_returns|].
  split.
  { apply NoDup_rev, slice_from_NoDup.
    exact (argsort_NoDup argsort Hargsort scores). }
  split.
  { rewrite Forall_forall. intros i Hi. rewrite <- Hn.
    apply (argsort_lt argsort Hargsort).
    apply in_rev in Hi. now apply slice_from_In in Hi. }
  intros Hdefined. unfold positions.
  rewrite selected_scores. now apply selected_scores_descending.
Qed.

(** C1. On a corpus of [n] chunks and [n] embeddings whose similarity scores
    against the query are all numbers (none is NaN), and for [1 <= k <= n],
    [get_top_k_chunks] returns exactly [k] pairs, each the chunk text and the
    score of one corpus position, no position twice, the scores in
    non-increasing order. *)
Theorem top_k_exact_and_sorted
    (argsort : list float -> list nat) (embeddings : matrix)
    (cs : list json) (q scores : list float) (k : Z) :
  (forall s, is_argsort s (argsort s)) ->
  length cs = length embeddings ->
  Forall (fun c => Spec.is_chunk c = true) cs ->
  all_scores embeddings q = Returns scores ->
  Forall Spec.well_defined scores ->
  (1 <= k <= Z.of_nat (length embeddings))%Z ->
  exists positions,
    get_top_k_chunks argsort embeddings (JList cs) q k
      = Returns (map (Spec.entry cs scores) positions) /\
    length (map (Spec.entry cs scores) positions) = Z.to_nat k /\
    NoDup positions /\
    Forall (fun i => (i < length embeddings)%nat) positions /\
    Spec.descending (map snd (map (Spec.entry cs scores) positions)).
Proof.
  intros Hargsort Hlen Hchunks Hscores Hdefined Hk.
  destruct (top_k_ranked argsort embeddings cs q scores k
              Hargsort Hlen Hchunks Hscores) as (Hret & Hnd & Hlt & Hdesc).
  exists (rev (slice_from (- k) (argsort scores))).
  repeat split; auto.
  pose proof (scores_length scores embeddings q Hscores) as Hn.
  pose proof (argsort_length argsort Hargsort scores) as Hidx.
  rewrite length_map, length_rev, slice_last by lia.
  rewrite length_skipn. lia.
Qed.

Lemma top_k_exact_and_sorted_witness :
  exists positions,
    get_top_k_chunks argsort_stable Demo.embeddings Demo.chunks
                     Demo.query_embedding 2
      = Returns (map (Spec.entry Demo.chunk_list Demo.scores) positions) /\
    length (map (Spec.entry Demo.chunk_list Demo.scores) positions) = 2%nat /\
    NoDup positions /\
    Forall (fun i => (i < 3)%nat) positions /\
    Spec.descending
      (map snd (map (Spec.entry Demo.chunk_list Demo.scores) positions)).
Proof.
  apply (top_k_exact_and_sorted argsort_stable Demo.embeddings
           Demo.chunk_list Demo.query_embedding Demo.scores 2).
  - exact argsort_stable_ok.
  - reflexivity.
  - repeat constructor.
  - vm_compute. reflexivity.
  - repeat constructor.
  - simpl. lia.
Defined.

(** The scenario of the specification: embeddings [1,0], [0,1], [1,1], query
    [1,0], top 2: the first chunk with score 1, then the third. *)
Example top_2_scenario :
  get_top_k_chunks argsort_stable Demo.embeddings Demo.chunks
                   Demo.query_embedding 2
  = Returns [(JStr (lit "A"), 1%float);
             (JStr (lit "C"), (1 / sqrt 2)%float)].
Proof. vm_compute. reflexivity. Qed.

(** With the zero vector among the embeddings a score is NaN: asked for more
    entries than the corpus has, the call returns both entries, the NaN one
    first, and the scores are not in non-increasing order. *)
Example top_k_zero_embedding :
  get_top_k_chunks argsort_stable Demo.embeddings_zero Demo.chunks_zero
                   Demo.query_embedding 3
  = Returns [(JStr (lit "A"), nan); (JStr (lit "B"), 1%float)].
Proof. vm_compute. reflexivity. Qed.

Lemma top_k_beyond_corpus_nan_counterexample :
  ~ exists res,
      get_top_k_chunks argsort_stable Demo.embeddings_zero Demo.chunks_zero
                       Demo.query_embedding 3 = Returns res /\
      length res = length Demo.embeddings_zero /\
      Spec.descending (map snd res).
Proof.
  intros (res & Hres & _ & Hdesc).
  rewrite top_k_zero_embedding in Hres. inversion Hres; subst res.
  simpl in Hdesc. apply StronglySorted_inv in Hdesc.
  destruct Hdesc as [_ Hhd]. inversion Hhd as [|x l H1 _]; subst.
  vm_compute in H1. discriminate.
Qed.

(** C4 (amended). On a non-empty corpus of [n] chunks and [n] embeddings and
    for [k > n], [get_top_k_chunks] raises no error and returns exactly [n]
    pairs, one per corpus position; when the similarity scores are all numbers
    (none is NaN) the scores are in non-increasing order. *)
Theorem top_k_beyond_corpus
    (argsort : list float -> list nat) (embeddings : matrix)
    (cs : list json) (q scores : list float) (k : Z) :
  (forall s, is_argsort s (argsort s)) ->
  length cs = length embeddings ->
  Forall (fun c => Spec.is_chunk c = true) cs ->
  all_scores embeddings q = Returns scores ->
  (0 < length embeddings)%nat ->
  (Z.of_nat (length embeddings) < k)%Z ->
  exists positions,
    get_top_k_chunks argsort embeddings (JList cs) q k
      = Returns (map (Spec.entry cs scores) positions) /\
    length (map (Spec.entry cs scores) positions) = length embeddings /\
    NoDup positions /\
    Forall (fun i => (i < length embeddings)%nat) positions /\
    (Forall Spec.well_defined scores ->
     Spec.descending (map snd (map (Spec.entry cs scores) positions))).
Proof.
  intros Hargsort Hlen Hchunks Hscores Hne Hk.
  destruct (top_k_ranked argsort embeddings cs q scores k
              Hargsort Hlen Hchunks Hscores) as (Hret & Hnd & Hlt & Hdesc).
  exists (rev (slice_from (- k) (argsort scores))).
  repeat split; auto.
  pose proof (scores_length scores embeddings q Hscores) as Hn.
  pose proof (argsort_length argsort Hargsort scores) as Hidx.
  rewrite length_map, length_rev, slice_all by lia. lia.
Qed.

Lemma top_k_beyond_corpus_witness :
  exists positions,
    get_top_k_chunks argsort_stable Demo.embeddings Demo.chunks
                     Demo.query_embedding 5
      = Returns (map (Spec.entry Demo.chunk_list Demo.scores) positions) /\
    length (map (Spec.entry Demo.chunk_list Demo.scores) positions) = 3%nat /\
    NoDup positions /\
    Forall (fun i => (i < 3)%nat) positions /\
    (Forall Spec.well_defined Demo.scores ->
     Spec.descending
       (map snd (map (Spec.entry Demo.chunk_list Demo.scores) positions))).
Proof.
  apply (top_k_beyond_corpus argsort_stable Demo.embeddings
           Demo.chunk_list Demo.query_embedding Demo.scores 5).
  - exact argsort_stable_ok.
  - reflexivity.
  - repeat constructor.
  - vm_compute. reflexivity.
  - simpl. lia.
  - simpl. lia.
Defined.

(** C5. With no embeddings (and whatever [chunks] holds, the empty list in
    particular) [get_top_k_chunks] returns the empty list for every query
    vector and every [k], and raises nothing. *)
Theorem top_k_empty_corpus
    (argsort : list float -> list nat) (chunks : json)
    (q : list float) (k : Z) :
  (forall s, is_argsort s (argsort s)) ->
  get_top_k_chunks argsort [] chunks q k = Returns [].
Proof.
  intros Hargsort. unfold get_top_k_chunks. simpl.
  destruct (Hargsort []) as [Hp _]. simpl in Hp.
  apply Permutation_sym, Permutation_nil in Hp. rewrite Hp.
  unfold slice_from. rewrite skipn_nil. reflexivity.
Qed.

Lemma top_k_empty_corpus_witness :
  get_top_k_chunks argsort_stable [] (JList []) Demo.query_embedding 5
  = Returns [].
Proof.
  apply (top_k_empty_corpus argsort_stable (JList []) Demo.query_embedding 5).
  exact argsort_stable_ok.
Defined.

(** ** The score operation *)

Module ScoreFacts.

Open Scope float_scope.

Lemma sum_upto_ext (n : nat) (f g : nat -> float) :
  (forall i, (i < n)%nat -> f i = g i) ->
  Spec.sum_upto n f = Spec.sum_upto n g.
Proof.
  induction n as [|n IH]; simpl; intros H; [reflexivity|].
  rewrite IH, (H n) by auto with arith. reflexivity.
Qed.

(** The left-to-right accumulation is the indexed sum. *)
Lemma fold_left_sum_upto (l : list (float * float)) :
  fold_left (fun acc xy => acc + fst xy * snd xy) l 0 =
  Spec.sum_upto (length l)
    (fun i => fst (nth i l (0, 0)) * snd (nth i l (0, 0))).
Proof.
  induction l as [|x l IH] using rev_ind; [reflexivity|].
  rewrite fold_left_app, length_app, Nat.add_1_r. simpl.
  rewrite IH, nth_middle. f_equal.
  apply sum_upto_ext. intros i Hi. now rewrite app_nth1.
Qed.

Lemma dot_sum_dot_product (a b : list float) :
  length a = length b -> Np.dot_sum a b = Spec.dot_product a b.
Proof.
  intros Hlen. unfold Np.dot_sum, Spec.dot_product.
  rewrite fold_left_sum_upto, length_combine, <- Hlen, Nat.min_id.
  apply sum_upto_ext. intros i _. now rewrite combine_nth.
Qed.

Lemma linalg_norm_euclidean (a : list float) :
  Np.linalg_norm a = Spec.euclidean_norm a.
Proof.
  unfold Np.linalg_norm, Spec.euclidean_norm.
  now rewrite dot_sum_dot_product.
Qed.

(** Reading the classification of a float off its IEEE decoding. *)
Lemma is_zero_SF (x : float) :
  is_zero x = true -> exists s, Prim2SF x = S754_zero s.
Proof.
  unfold is_zero. rewrite eqb_spec. unfold SFeqb.
  change (Prim2SF zero) with (S754_zero false).
  destruct (Prim2SF x) as [s|s| |s m e]; simpl; try discriminate.
  - now exists s.
  - destruct s; discriminate.
  - destruct s; discriminate.
Qed.

Lemma is_infinity_SF (x : float) (s : bool) :
  Prim2SF x = S754_infinity s -> is_infinity x = true.
Proof.
  intros H. unfold is_infinity. rewrite eqb_spec, abs_spec, H.
  reflexivity.
Qed.

Lemma mul_zero_l (x y : float) :
  is_zero x = true ->
  Prim2SF (x * y) = S754_nan \/ exists s, Prim2SF (x * y) = S754_zero s.
Proof.
  intros H. destruct (is_zero_SF x H) as [s Hx].
  rewrite mul_spec, Hx. unfold SF64mul.
  destruct (Prim2SF y) as [sy|sy| |sy m e]; simpl; eauto.
Qed.

Lemma mul_zero_r (x y : float) :
  is_zero y = true ->
  Prim2SF (x * y) = S754_nan \/ exists s, Prim2SF (x * y) = S754_zero s.
Proof.
  intros H. destruct (is_zero_SF y H) as [s Hy].
  rewrite mul_spec, Hy. unfold SF64mul.
  destruct (Prim2SF x) as [sx|sx| |sx m e]; simpl; eauto.
Qed.

(** A quotient by a NaN or by a zero is a NaN or an infinity. *)
Lemma div_by_nan_or_zero (d n : float) :
  Prim2SF n = S754_nan \/ (exists s, Prim2SF n = S754_zero s) ->
  is_nan (d / n) = true \/ is_infinity (d / n) = true.
Proof.
  intros [Hn|[s Hn]].
  - left. apply FloatOrder.is_nan_SF. rewrite div_spec, Hn. unfold SF64div.
    destruct (Prim2SF d); reflexivity.
  - destruct (Prim2SF d) as [sd|sd| |sd m e] eqn:Hd.
    + left. apply FloatOrder.is_nan_SF. rewrite div_spec, Hn, Hd. reflexivity.
    + right. apply (is_infinity_SF _ (xorb sd s)).
      rewrite div_spec, Hn, Hd. reflexivity.
    + left. apply FloatOrder.is_nan_SF. rewrite div_spec, Hn, Hd. reflexivity.
    + right. apply (is_infinity_SF _ (xorb sd s)).
      rewrite div_spec, Hn, Hd. reflexivity.
Qed.

End ScoreFacts.

(** Vectors of different lengths are not scored: [np.dot] raises. *)
Lemma cosine_similarity_misaligned (a b : list float) :
  length a <> length b -> cosine_similarity a b = Raises ValueError.
Proof.
  intros H. unfold cosine_similarity, Np.dot.
  apply Nat.eqb_neq in H. now rewrite H.
Qed.

(** The zero vector against a unit vector scores NaN, which is no number. *)
Example cosine_similarity_zero_vector :
  cosine_similarity [0; 0]%float [1; 0]%float = Returns nan.
Proof. vm_compute. reflexivity. Qed.

(** A vector whose squares underflow has norm zero too; the quotient is then
    an infinity. *)
Example cosine_similarity_underflow :
  cosine_similarity [0x1p-600]%float [1]%float = Returns infinity.
Proof. vm_compute. reflexivity. Qed.

(** A vector whose square overflows has an infinite norm; against itself it
    scores NaN, though its norm is not zero. *)
Example cosine_similarity_overflow :
  cosine_similarity [0x1p600]%float [0x1p600]%float = Returns nan.
Proof. vm_compute. reflexivity. Qed.

(** The ranker puts an entry scored NaN first, ahead of the exact match. *)
Example zero_embedding_ranks_first :
  get_top_k_chunks argsort_stable Demo.embeddings_zero Demo.chunks_zero
                   Demo.query_embedding 1
  = Returns [(JStr (lit "A"), nan)].
Proof. vm_compute. reflexivity. Qed.

(** The zero vector against a unit vector: the result is no number, so no
    sentinel score, and far from having the lowest priority its entry is the
    one returned as the top match. *)
Lemma cosine_similarity_zero_norm_counterexample :
  ~ (exists s,
       cosine_similarity [0; 0]%float [1; 0]%float = Returns s /\
       Spec.well_defined s) /\
  get_top_k_chunks argsort_stable Demo.embeddings_zero Demo.chunks_zero
                   Demo.query_embedding 1
  = Returns [(JStr (lit "A"), nan)].
Proof.
  split; [|exact zero_embedding_ranks_first].
  intros (s & Hs & Hdef). rewrite cosine_similarity_zero_vector in Hs.
  inversion Hs; subst s. vm_compute in Hdef. discriminate.
Qed.

(** C3 (amended). For vectors of equal length of which one has Euclidean norm
    zero, [cosine_similarity] raises nothing and returns the unguarded
    quotient, which is a NaN or an infinity, never a finite score. *)
Theorem cosine_similarity_zero_norm (a b : list float) :
  length a = length b ->
  is_zero (Spec.euclidean_norm a) = true \/
  is_zero (Spec.euclidean_norm b) = true ->
  exists s,
    cosine_similarity a b = Returns s /\
    (is_nan s = true \/ is_infinity s = true).
Proof.
  intros Hlen Hzero. unfold cosine_similarity, Np.dot.
  rewrite Hlen, Nat.eqb_refl. simpl. eexists; split; [reflexivity|].
  rewrite !ScoreFacts.linalg_norm_euclidean.
  apply ScoreFacts.div_by_nan_or_zero.
  destruct Hzero as [H|H];
    [apply ScoreFacts.mul_zero_l | apply ScoreFacts.mul_zero_r]; exact H.
Qed.

Lemma cosine_similarity_zero_norm_witness :
  exists s,
    cosine_similarity [0; 0]%float [1; 0]%float = Returns s /\
    (is_nan s = true \/ is_infinity s = true).
Proof.
  apply (cosine_similarity_zero_norm [0; 0]%float [1; 0]%float).
  - reflexivity.
  - left. vm_compute. reflexivity.
Defined.

(** ** The corpus loader *)

(** C6. Loading a chunks artifact that is a record holding the sequence of
    chunk elements under the key "chunks" gives the same result as loading the
    bare sequence: the identical ordered sequence, next to the embeddings. *)
Theorem load_data_unwraps
    (embeddings_file : outcome matrix) (d : list (str * json))
    (elements : list json) :
  dict_get (lit "chunks") d = Some (JList elements) ->
  load_data embeddings_file (Returns (JDict d))
    = load_data embeddings_file (Returns (JList elements)) /\
  forall embeddings,
    embeddings_file = Returns embeddings ->
    load_data embeddings_file (Returns (JDict d))
      = Returns (embeddings, JList elements).
Proof.
  intros Hget.
  assert (H : load_data embeddings_file (Returns (JDict d))
              = load_data embeddings_file (Returns (JList elements))).
  { unfold load_data. destruct embeddings_file as [e|x]; [|reflexivity].
    simpl. unfold dict_mem. rewrite Hget. reflexivity. }
  split; [exact H|].
  intros embeddings ->. rewrite H. reflexivity.
Qed.

Lemma load_data_unwraps_witness :
  load_data (Returns Demo.embeddings)
            (Returns (JDict [(lit "source", JStr (lit "book"));
                             (lit "chunks", Demo.chunks)]))
    = load_data (Returns Demo.embeddings) (Returns Demo.chunks) /\
  forall embeddings,
    Returns Demo.embeddings = Returns embeddings ->
    load_data (Returns Demo.embeddings)
              (Returns (JDict [(lit "source", JStr (lit "book"));
                               (lit "chunks", Demo.chunks)]))
      = Returns (embeddings, Demo.chunks).
Proof.
  apply (load_data_unwraps (Returns Demo.embeddings)
           [(lit "source", JStr (lit "book")); (lit "chunks", Demo.chunks)]
           Demo.chunk_list).
  vm_compute. reflexivity.
Defined.

(** In particular for the record with that one field. *)
Lemma load_data_wrapped (embeddings_file : outcome matrix)
      (elements : list json) :
  load_data embeddings_file (Returns (JDict [(lit "chunks", JList elements)]))
  = load_data embeddings_file (Returns (JList elements)).
Proof.
  unfold load_data. destruct embeddings_file as [e|x]; [|reflexivity].
  cbn [bind wraps_chunks dict_mem getitem_key dict_get].
  rewrite str_eqb_refl. reflexivity.
Qed.

(** A record without the key, and any value that is not a record, is kept as
    it is. *)
Lemma load_data_bare (embeddings : matrix) (chunks : json) :
  wraps_chunks chunks = false ->
  load_data (Returns embeddings) (Returns chunks) = Returns (embeddings, chunks).
Proof. intros H. unfold load_data. simpl. now rewrite H. Qed.

(** ** The generation client *)

Section ClientFacts.

Variable key : str.
Variable post : str -> json -> outcome response.
Variable prompt : str.
Variable resp : response.

Hypothesis Hpost :
  post (gemini_endpoint ++ key) (request_data prompt) = Returns resp.

Lemma ask_gemini_status (w : world) :
  (status_code resp =? 200)%Z = false ->
  ask_gemini (Some key) post prompt w
  = (Returns (JStr (error_status (status_code resp))), posted key prompt w).
Proof.
  intros Hs. unfold ask_gemini, bindM, liftM, logM, retM, request_url.
  cbv beta iota zeta. rewrite Hpost, Hs. reflexivity.
Qed.

Lemma ask_gemini_ok (w : world) (body : json) :
  status_code resp = 200%Z ->
  json_body resp = Returns body ->
  ask_gemini (Some key) post prompt w
  = (match Spec.expected_text body with
     | Some text => Returns text
     | None => Returns (JStr error_unexpected_format)
     end, posted key prompt w).
Proof.
  intros Hs Hb. unfold ask_gemini, bindM, liftM, logM, retM, request_url.
  cbv beta iota zeta. rewrite Hpost, Hs, Hb. simpl. f_equal.
  unfold Spec.expected_text.
  destruct body as [| | | | |l|d]; try reflexivity. simpl.
  destruct (dict_get (lit "candidates") d) as [candidates|];
    [|reflexivity]. simpl.
  destruct candidates as [| | | | s |l|d']; try reflexivity.
  { simpl. destruct s; reflexivity. }
  destruct l as [|candidate l]; [reflexivity|]. simpl.
  destruct candidate as [| | | | |l'|c]; try reflexivity. simpl.
  destruct (dict_get (lit "content") c) as [content|]; [|reflexivity].
  simpl. destruct content as [| | | | |l'|ct]; try reflexivity. simpl.
  destruct (dict_get (lit "parts") ct) as [parts|]; [|reflexivity].
  simpl. destruct parts as [| | | | s |l'|d']; try reflexivity.
  { simpl. destruct s; reflexivity. }
  destruct l' as [|part l']; [reflexivity|]. simpl.
  destruct part as [| | | | |l''|pt]; try reflexivity. simpl.
  destruct (dict_get (lit "text") pt); reflexivity.
Qed.

End ClientFacts.

(** C7. When the generation API answers with a status code other than 200,
    [ask_gemini] raises nothing and returns an error string that contains the
    status code in decimal; for a 500 response the string contains "500". *)
Theorem ask_gemini_non_200
    (key : str) (post : str -> json -> outcome response) (prompt : str)
    (resp : response) (w : world) :
  post (gemini_endpoint ++ key) (request_data prompt) = Returns resp ->
  status_code resp <> 200%Z ->
  exists message,
    ask_gemini (Some key) post prompt w
      = (Returns (JStr message), posted key prompt w) /\
    containsb (str_of_int (status_code resp)) message = true /\
    (status_code resp = 500%Z -> containsb (lit "500") message = true).
Proof.
  intros Hpost Hstatus. exists (error_status (status_code resp)).
  split; [|split].
  - apply ask_gemini_status; [exact Hpost|]. now apply Z.eqb_neq.
  - unfold error_status. apply containsb_app.
  - intros ->. vm_compute. reflexivity.
Qed.

Lemma ask_gemini_non_200_witness :
  exists message,
    ask_gemini (Some (lit "k")) Demo.post_500 (lit "What is a class?")
               Demo.world0
      = (Returns (JStr message),
         posted (lit "k") (lit "What is a class?") Demo.world0) /\
    containsb (str_of_int 500) message = true /\
    (500%Z = 500%Z -> containsb (lit "500") message = true).
Proof.
  apply (ask_gemini_non_200 (lit "k") Demo.post_500 (lit "What is a class?")
           (mkResponse 500 (Raises JSONDecodeError)) Demo.world0).
  - reflexivity.
  - simpl. lia.
Defined.

(** C8. When the generation API answers 200 with a JSON body in which
    [candidates[0].content.parts[0].text] is not there, [ask_gemini] raises
    nothing and returns the "unexpected format" error string. *)
Theorem ask_gemini_missing_fields
    (key : str) (post : str -> json -> outcome response) (prompt : str)
    (resp : response) (body : json) (w : world) :
  post (gemini_endpoint ++ key) (request_data prompt) = Returns resp ->
  status_code resp = 200%Z ->
  json_body resp = Returns body ->
  Spec.expected_text body = None ->
  ask_gemini (Some key) post prompt w
    = (Returns (JStr error_unexpected_format), posted key prompt w).
Proof.
  intros Hpost Hstatus Hbody Hmissing.
  rewrite (ask_gemini_ok key post prompt resp Hpost w body Hstatus Hbody).
  now rewrite Hmissing.
Qed.

Lemma ask_gemini_missing_fields_witness :
  ask_gemini (Some (lit "k")) Demo.post_empty_object (lit "What is a class?")
             Demo.world0
    = (Returns (JStr error_unexpected_format),
       posted (lit "k") (lit "What is a class?") Demo.world0).
Proof.
  apply (ask_gemini_missing_fields (lit "k") Demo.post_empty_object
           (lit "What is a class?")
           (mkResponse 200 (Returns (JDict []))) (JDict []) Demo.world0);
    reflexivity.
Defined.

(** With the fields there, the generated text is returned. *)
Lemma ask_gemini_text
    (key : str) (post : str -> json -> outcome response) (prompt : str)
    (resp : response) (body text : json) (w : world) :
  post (gemini_endpoint ++ key) (request_data prompt) = Returns resp ->
  status_code resp = 200%Z ->
  json_body resp = Returns body ->
  Spec.expected_text body = Some text ->
  ask_gemini (Some key) post prompt w = (Returns text, posted key prompt w).
Proof.
  intros Hpost Hstatus Hbody Htext.
  rewrite (ask_gemini_ok key post prompt resp Hpost w body Hstatus Hbody).
  now rewrite Htext.
Qed.

(** The two error strings are told apart whatever the status code. *)
Lemma error_strings_differ (code : Z) :
  error_unexpected_format <> error_status code.
Proof.
  unfold error_unexpected_format, error_status, lit. simpl.
  intros H. repeat (injection H as _ H). discriminate.
Qed.

(** A 200 response whose body is not JSON is outside [try]: the exception of
    [response.json()] leaves [ask_gemini]. *)
Lemma ask_gemini_body_not_json
    (key : str) (post : str -> json -> outcome response) (prompt : str)
    (resp : response) (e : exn) (w : world) :
  post (gemini_endpoint ++ key) (request_data prompt) = Returns resp ->
  status_code resp = 200%Z ->
  json_body resp = Raises e ->
  ask_gemini (Some key) post prompt w = (Raises e, posted key prompt w).
Proof.
  intros Hpost Hstatus Hbody.
  unfold ask_gemini, bindM, liftM, logM, retM, request_url.
  cbv beta iota zeta. rewrite Hpost, Hstatus, Hbody. reflexivity.
Qed.

(** ** The script: query cycle and history *)

Lemma lstrip_blank (s : str) : Spec.blank s -> lstrip s = [].
Proof.
  induction 1 as [|c s Hc _ IH]; simpl; [reflexivity|]. now rewrite Hc.
Qed.

Lemma lstrip_nil_blank (s : str) : lstrip s = [] -> Spec.blank s.
Proof.
  induction s as [|c s IH]; simpl; intros H; [constructor|].
  destruct (is_space c) eqn:Hc; [|discriminate].
  constructor; [exact Hc|now apply IH].
Qed.

(** A string whose last character is no whitespace keeps it under [lstrip]. *)
Lemma lstrip_app_last (s : str) (c : N) :
  is_space c = false -> exists rest, lstrip (s ++ [c]) = rest ++ [c].
Proof.
  intros Hc. induction s as [|d s [rest IH]]; simpl.
  - rewrite Hc. now exists [].
  - destruct (is_space d).
    + now exists rest.
    + now exists (d :: s).
Qed.

Lemma lstrip_head (s : str) (c : N) (rest : str) :
  lstrip s = c :: rest -> is_space c = false.
Proof.
  induction s as [|d s IH]; simpl; [discriminate|].
  destruct (is_space d) eqn:Hd; [exact IH|].
  intros H. inversion H; subst. exact Hd.
Qed.

(** [query.strip()] is empty exactly for a query that is empty or made of
    whitespace only. *)
Lemma strip_blank_iff (query : str) :
  truthy (strip query) = false <-> Spec.blank query.
Proof.
  unfold strip. split.
  - intros H.
    destruct (lstrip query) as [|c rest] eqn:E; [now apply lstrip_nil_blank|].
    exfalso. pose proof (lstrip_head query c rest E) as Hc.
    simpl in H. destruct (lstrip_app_last (rev rest) c Hc) as [r Hr].
    rewrite Hr, rev_app_distr in H. simpl in H. discriminate.
  - intros H. now rewrite (lstrip_blank query H).
Qed.

Section ScriptFacts.

Variable api_key : option str.
Variable encode : list str -> matrix.
Variable post : str -> json -> outcome response.
Variable format_4f : float -> str.
Variable repr : json -> str.
Variable argsort : list float -> list nat.
Variable embeddings : matrix.
Variable chunks : json.

(** The generation client never touches the history. *)
Lemma ask_gemini_history (prompt : str) (w w' : world) (o : outcome json) :
  ask_gemini api_key post prompt w = (o, w') ->
  chat_history w' = chat_history w.
Proof.
  unfold ask_gemini, bindM, liftM, logM, retM, request_url.
  destruct api_key as [key|]; cbv beta iota zeta.
  - destruct (post _ _) as [resp|e].
    + destruct (status_code resp =? 200)%Z.
      * destruct (json_body resp); intros H; inversion H; reflexivity.
      * intros H; inversion H; reflexivity.
    + intros H; inversion H; reflexivity.
  - intros H; inversion H; reflexivity.
Qed.

(** A query cycle that runs to its end has retrieved the top 5 chunks for
    the query's embedding and appended one turn made of the query, the
    client's answer and the context assembled from those chunks. *)
Lemma query_cycle_completed (query : str) (w w' : world) :
  query_cycle api_key encode post format_4f repr argsort embeddings chunks
              query w = (Returns tt, w') ->
  exists top_chunks answer,
    chat_history w' =
    Some (history w ++
          [mkChat query answer (make_context format_4f repr top_chunks)]).
Proof.
  unfold query_cycle, bindM, liftM, logM. cbv beta iota zeta.
  destruct (encode [query]) as [|row rows]; [discriminate|].
  destruct (get_top_k_chunks argsort embeddings chunks row 5)
    as [top_chunks|e]; [|discriminate].
  destruct (ask_gemini api_key post _ _) as [[answer|e] w3] eqn:Hask;
    [|discriminate].
  intros H. inversion H; subst w'. simpl.
  apply ask_gemini_history in Hask. simpl in Hask.
  exists top_chunks, answer. unfold history. rewrite Hask. reflexivity.
Qed.

(** The history is drawn newest turn first. *)
Lemma render_history_newest_first (h : list chat) (c : chat) :
  render_history repr (h ++ [c]) = render_chat repr c :: render_history repr h.
Proof. unfold render_history. now rewrite rev_app_distr. Qed.

(** C9. A run of the script in which the query cycle is entered (the
    credential is set, the form was submitted, the stripped query is not
    empty) and completes appends exactly one record (question, answer,
    context) to the chat history, the question being the query; the turns
    recorded before are left as they were; and the page shows the history
    most recent turn first, the new turn on top. *)
Theorem completed_cycle_appends_one_turn
    (key : str) (submitted : bool) (query : str) (w w' : world)
    (page : list widget) :
  api_key = Some key ->
  truthy key = true ->
  submitted = true ->
  truthy (strip query) = true ->
  script api_key encode post format_4f repr argsort embeddings chunks
         submitted query w = (Returns page, w') ->
  exists answer context,
    history w' = history w ++ [mkChat query answer context] /\
    page = page_header ++ map (render_chat repr) (rev (history w'))
             ++ page_footer /\
    map (render_chat repr) (rev (history w'))
    = render_chat repr (mkChat query answer context)
        :: map (render_chat repr) (rev (history w)).
Proof.
  intros Hkey Hset -> Hquery. unfold script. rewrite Hkey.
  destruct key as [|c key']; [discriminate|].
  rewrite Hquery. simpl andb. cbv iota.
  unfold bindM at 1 2. unfold init_history at 1.
  destruct (query_cycle _ _ _ _ _ _ _ _ _ _) as [[[]|e] w1] eqn:Hcycle;
    [|discriminate].
  intros H. inversion H; subst w' page. clear H.
  rewrite <- Hkey in Hcycle. apply query_cycle_completed in Hcycle.
  simpl in Hcycle. destruct Hcycle as (top_chunks & answer & Hhist).
  exists answer, (make_context format_4f repr top_chunks).
  assert (Hw1 : history w1 = history w ++
            [mkChat query answer (make_context format_4f repr top_chunks)]).
  { unfold history at 1. rewrite Hhist. reflexivity. }
  split; [exact Hw1|]. split; [reflexivity|].
  rewrite Hw1. apply render_history_newest_first.
Qed.

(** The scenario of a failed generation, in general: when retrieval succeeds
    and the API answers with a status other than 200, the run completes, the
    history gains the one turn whose answer is the error string, and the
    embedder and the API were each called once. *)
Lemma failed_generation_is_recorded
    (key : str) (query : str) (w : world) (row : list float) (rows : matrix)
    (top_chunks : list (json * float)) (resp : response) :
  api_key = Some key ->
  truthy key = true ->
  truthy (strip query) = true ->
  encode [query] = row :: rows ->
  get_top_k_chunks argsort embeddings chunks row 5 = Returns top_chunks ->
  let context := make_context format_4f repr top_chunks in
  let prompt := make_prompt context query in
  post (gemini_endpoint ++ key) (request_data prompt) = Returns resp ->
  status_code resp <> 200%Z ->
  exists page w',
    script api_key encode post format_4f repr argsort embeddings chunks
           true query w = (Returns page, w') /\
    history w' = history w ++
      [mkChat query (JStr (error_status (status_code resp))) context] /\
    calls w' = calls w ++
      [EncodeCall [query];
       PostCall (gemini_endpoint ++ key) (request_data prompt)].
Proof.
  intros Hkey Hset Hquery Hrow Htop context prompt Hpost Hstatus.
  apply Z.eqb_neq in Hstatus.
  unfold script. rewrite Hkey.
  destruct key as [|c key']; [discriminate|].
  rewrite Hquery. simpl andb. cbv iota.
  unfold bindM at 1 2. unfold init_history at 1.
  unfold query_cycle, bindM, liftM, logM. cbv beta iota zeta.
  rewrite Hrow, Htop.
  fold context. fold prompt.
  rewrite (ask_gemini_status (c :: key') post prompt resp Hpost _ Hstatus).
  eexists _, _. split; [reflexivity|]. simpl.
  split; [reflexivity|]. now rewrite <- app_assoc.
Qed.

(** C10. When the submitted query is empty or made of whitespace only, the
    run is the run of a page that was not submitted: the query cycle is not
    entered, so no call to the embedder or to the generation API is made and
    the chat history keeps its turns. *)
Theorem blank_query_runs_no_cycle
    (submitted : bool) (query : str) (w : world) :
  Spec.blank query ->
  script api_key encode post format_4f repr argsort embeddings chunks
         submitted query w
  = script api_key encode post format_4f repr argsort embeddings chunks
           false query w /\
  exists page w',
    script api_key encode post format_4f repr argsort embeddings chunks
           submitted query w = (Returns page, w') /\
    calls w' = calls w /\
    history w' = history w.
Proof.
  intros Hblank. apply strip_blank_iff in Hblank.
  unfold script. rewrite Hblank, andb_false_r.
  split; [reflexivity|].
  destruct api_key as [[|c key]|]; simpl.
  - eexists _, w. repeat split; reflexivity.
  - unfold bindM, init_history, retM.
    eexists _, _. repeat split; reflexivity.
  - eexists _, w. repeat split; reflexivity.
Qed.

End ScriptFacts.

Lemma completed_cycle_appends_one_turn_witness :
  exists answer context,
    history (snd Demo.run_500)
      = history Demo.world0 ++ [mkChat Demo.query answer context] /\
    Demo.page_500
      = page_header
          ++ map (render_chat Demo.repr) (rev (history (snd Demo.run_500)))
          ++ page_footer /\
    map (render_chat Demo.repr) (rev (history (snd Demo.run_500)))
    = render_chat Demo.repr (mkChat Demo.query answer context)
        :: map (render_chat Demo.repr) (rev (history Demo.world0)).
Proof.
  apply (completed_cycle_appends_one_turn
           Demo.key Demo.encode Demo.post_500 Demo.format_4f Demo.repr
           argsort_stable Demo.embeddings Demo.chunks
           (lit "k") true Demo.query Demo.world0 (snd Demo.run_500)
           Demo.page_500).
  - reflexivity.
  - reflexivity.
  - reflexivity.
  - vm_compute. reflexivity.
  - vm_compute. reflexivity.
Defined.

(** The scenario of the specification: the API answers 500; the turn's answer
    is the error string for 500 and the history gains that one turn. *)
Example run_500_scenario :
  exists context,
    history (snd Demo.run_500)
    = [mkChat Demo.query (JStr (error_status 500)) context].
Proof. eexists. vm_compute. reflexivity. Qed.

Lemma blank_query_runs_no_cycle_witness :
  script Demo.key Demo.encode Demo.post_500 Demo.format_4f Demo.repr
         argsort_stable Demo.embeddings Demo.chunks true Demo.blank_query
         Demo.world0
  = script Demo.key Demo.encode Demo.post_500 Demo.format_4f Demo.repr
           argsort_stable Demo.embeddings Demo.chunks false Demo.blank_query
           Demo.world0 /\
  exists page w',
    script Demo.key Demo.encode Demo.post_500 Demo.format_4f Demo.repr
           argsort_stable Demo.embeddings Demo.chunks true Demo.blank_query
           Demo.world0 = (Returns page, w') /\
    calls w' = calls Demo.world0 /\
    history w' = history Demo.world0.
Proof.
  apply (blank_query_runs_no_cycle
           Demo.key Demo.encode Demo.post_500 Demo.format_4f Demo.repr
           argsort_stable Demo.embeddings Demo.chunks
           true Demo.blank_query Demo.world0).
  repeat constructor.
Defined.

(* ================================================================= *)
(** * Further properties *)

(** ** List comprehensions that may raise *)

Lemma mapM_ext {A B} (f g : A -> outcome B) (l : list A) :
  (forall x, In x l -> f x = g x) -> mapM f l = mapM g l.
Proof.
  induction l as [|x l IH]; simpl; intros H; [reflexivity|].
  rewrite (H x) by now left.
  rewrite IH by (intros; apply H; now right). reflexivity.
Qed.

(** When every element is computed or raises [e], and one raises [e], the
    comprehension raises [e]. *)
Lemma mapM_raises {A B} (f : A -> outcome B) (e : exn) (l : list A) :
  (forall x, In x l -> (exists y, f x = Returns y) \/ f x = Raises e) ->
  (exists x, In x l /\ f x = Raises e) ->
  mapM f l = Raises e.
Proof.
  induction l as [|x l IH]; simpl; intros Hall (x0 & Hin & Hx0);
    [contradiction|].
  destruct (Hall x (or_introl eq_refl)) as [[y Hy]|Hx].
  - rewrite Hy. simpl. rewrite IH; [reflexivity| |].
    + intros z Hz. apply Hall. now right.
    + destruct Hin as [<-|Hin]; [congruence|]. now exists x0.
  - now rewrite Hx.
Qed.

Lemma mapM_nth {A B} (f : A -> outcome B) (l : list A) (ys : list B)
      (d : A) (d' : B) :
  mapM f l = Returns ys ->
  forall i, (i < length l)%nat -> f (nth i l d) = Returns (nth i ys d').
Proof.
  revert ys; induction l as [|x l IH]; simpl; intros ys H i Hi; [lia|].
  destruct (f x) as [y|] eqn:Hx; simpl in H; [|discriminate].
  destruct (mapM f l) as [ys'|]; simpl in H; [|discriminate].
  inversion H; subst ys. destruct i as [|i]; simpl; [exact Hx|].
  apply IH; [reflexivity|lia].
Qed.

(** ** More on top-K selection *)

Lemma pick_in_range (cs : list json) (scores : list float) (i : nat) :
  (i < length cs)%nat -> (i < length scores)%nat ->
  Forall (fun c => Spec.is_chunk c = true) cs ->
  pick (JList cs) scores i = Returns (Spec.entry cs scores i).
Proof.
  intros Hc Hi Hchunks. unfold pick, Spec.entry, score_at. simpl.
  rewrite (nth_error_nth' cs JNone Hc). simpl.
  assert (Hk : Spec.is_chunk (nth i cs JNone) = true).
  { rewrite Forall_forall in Hchunks. apply Hchunks, nth_In, Hc. }
  rewrite (nth_error_nth' scores nan Hi).
  destruct (nth i cs JNone) as [| | | | s | |d]; try discriminate; simpl.
  - reflexivity.
  - unfold chunk_text. simpl. destruct (dict_get _ d); reflexivity.
Qed.

Lemma pick_out_of_range (cs : list json) (scores : list float) (i : nat) :
  (length cs <= i)%nat -> pick (JList cs) scores i = Raises IndexError.
Proof.
  intros Hi. unfold pick. simpl.
  apply nth_error_None in Hi. now rewrite Hi.
Qed.

(** [k = 0] does not ask for nothing: [scores[-0:]] is the whole array. A
    negative [k] drops the [-k] lowest scores. On a corpus of [n] chunks and
    [n] embeddings, for [k <= 0], the call returns [n - |k|] entries (none
    when [|k| >= n]), so all [n] for [k = 0]. *)
Theorem top_k_nonpositive_k
    (argsort : list float -> list nat) (embeddings : matrix)
    (cs : list json) (q scores : list float) (k : Z) :
  (forall s, is_argsort s (argsort s)) ->
  length cs = length embeddings ->
  Forall (fun c => Spec.is_chunk c = true) cs ->
  all_scores embeddings q = Returns scores ->
  (k <= 0)%Z ->
  exists res,
    get_top_k_chunks argsort embeddings (JList cs) q k = Returns res /\
    length res = (length embeddings - Z.to_nat (- k))%nat.
Proof.
  intros Hargsort Hlen Hchunks Hscores Hk.
  destruct (top_k_ranked argsort embeddings cs q scores k
              Hargsort Hlen Hchunks Hscores) as (Hret & _).
  eexists. split; [exact Hret|].
  pose proof (scores_length scores embeddings q Hscores) as Hn.
  pose proof (argsort_length argsort Hargsort scores) as Hidx.
  rewrite length_map, length_rev. unfold slice_from.
  destruct (Z.ltb_spec (- k) 0); [lia|].
  rewrite length_skipn. lia.
Qed.

Lemma top_k_nonpositive_k_witness :
  exists res,
    get_top_k_chunks argsort_stable Demo.embeddings Demo.chunks
                     Demo.query_embedding 0 = Returns res /\
    length res = (3 - 0)%nat.
Proof.
  apply (top_k_nonpositive_k argsort_stable Demo.embeddings Demo.chunk_list
           Demo.query_embedding Demo.scores 0).
  - exact argsort_stable_ok.
  - reflexivity.
  - repeat constructor.
  - vm_compute. reflexivity.
  - lia.
Defined.

(** The entries returned are the best ones: with scores that are all numbers,
    no corpus position left out of the result has a score above the score of
    a returned position. *)
Theorem top_k_dominates
    (argsort : list float -> list nat) (embeddings : matrix)
    (cs : list json) (q scores : list float) (k : Z) :
  (forall s, is_argsort s (argsort s)) ->
  length cs = length embeddings ->
  Forall (fun c => Spec.is_chunk c = true) cs ->
  all_scores embeddings q = Returns scores ->
  Forall Spec.well_defined scores ->
  exists positions,
    get_top_k_chunks argsort embeddings (JList cs) q k
      = Returns (map (Spec.entry cs scores) positions) /\
    forall i j,
      In i positions -> (j < length embeddings)%nat -> ~ In j positions ->
      (score_at scores j <=? score_at scores i)%float = true.
Proof.
  intros Hargsort Hlen Hchunks Hscores Hdefined.
  destruct (top_k_ranked argsort embeddings cs q scores k
              Hargsort Hlen Hchunks Hscores) as (Hret & _ & Hlt & _).
  eexists. split; [exact Hret|].
  pose proof (scores_length scores embeddings q Hscores) as Hn.
  intros i j Hi Hj Hnot.
  rewrite Forall_forall in Hlt, Hdefined.
  rewrite <- FloatOrder.np_le_defined.
  - apply (selected_dominate argsort Hargsort scores k).
    + now apply in_rev.
    + lia.
    + intros H. apply Hnot. now apply in_rev in H.
  - apply Hdefined, nth_In. lia.
  - apply Hdefined, nth_In. specialize (Hlt i Hi). lia.
Qed.

Lemma top_k_dominates_witness :
  exists positions,
    get_top_k_chunks argsort_stable Demo.embeddings Demo.chunks
                     Demo.query_embedding 2
      = Returns (map (Spec.entry Demo.chunk_list Demo.scores) positions) /\
    forall i j,
      In i positions -> (j < 3)%nat -> ~ In j positions ->
      (score_at Demo.scores j <=? score_at Demo.scores i)%float = true.
Proof.
  apply (top_k_dominates argsort_stable Demo.embeddings Demo.chunk_list
           Demo.query_embedding Demo.scores 2).
  - exact argsort_stable_ok.
  - reflexivity.
  - repeat constructor.
  - vm_compute. reflexivity.
  - repeat constructor.
Defined.

(** The lengths of the two artifacts are not compared anywhere. With fewer
    chunks than embeddings, a call that selects every position ([k >= n])
    raises [IndexError] at the first selected position that has no chunk. *)
Theorem top_k_fewer_chunks_raises
    (argsort : list float -> list nat) (embeddings : matrix)
    (cs : list json) (q scores : list float) (k : Z) :
  (forall s, is_argsort s (argsort s)) ->
  (length cs < length embeddings)%nat ->
  Forall (fun c => Spec.is_chunk c = true) cs ->
  all_scores embeddings q = Returns scores ->
  (Z.of_nat (length embeddings) <= k)%Z ->
  get_top_k_chunks argsort embeddings (JList cs) q k = Raises IndexError.
Proof.
  intros Hargsort Hlen Hchunks Hscores Hk.
  pose proof (scores_length scores embeddings q Hscores) as Hn.
  pose proof (argsort_length argsort Hargsort scores) as Hidx.
  unfold get_top_k_chunks. rewrite Hscores. simpl.
  assert (Hall : slice_from (- k) (argsort scores) = argsort scores).
  { unfold slice_from. destruct (Z.ltb_spec (- k) 0); [|lia].
    replace (Z.to_nat _) with 0%nat by lia. reflexivity. }
  rewrite Hall. apply mapM_raises.
  - intros i Hi. apply in_rev in Hi.
    apply (argsort_lt argsort Hargsort) in Hi.
    destruct (Nat.lt_ge_cases i (length cs)) as [Hc|Hc].
    + left. eexists. now apply pick_in_range.
    + right. now apply pick_out_of_range.
  - exists (length cs). split; [|now apply pick_out_of_range].
    apply in_rev. rewrite rev_involutive.
    destruct (Hargsort scores) as [Hp _].
    apply (Permutation_in _ (Permutation_sym Hp)), in_seq. lia.
Qed.

Lemma top_k_fewer_chunks_raises_witness :
  get_top_k_chunks argsort_stable Demo.embeddings
                   (JList [JStr (lit "A"); JStr (lit "B")])
                   Demo.query_embedding 5 = Raises IndexError.
Proof.
  apply (top_k_fewer_chunks_raises argsort_stable Demo.embeddings
           [JStr (lit "A"); JStr (lit "B")] Demo.query_embedding
           Demo.scores 5).
  - exact argsort_stable_ok.
  - simpl. lia.
  - repeat constructor.
  - vm_compute. reflexivity.
  - simpl. lia.
Defined.

(** The chunks beyond the last embedding are never read: the call does on
    the whole chunk list what it does on its first [n] chunks. *)
Lemma top_k_surplus_chunks_unread
    (argsort : list float -> list nat) (embeddings : matrix)
    (cs : list json) (q : list float) (k : Z) :
  (forall s, is_argsort s (argsort s)) ->
  (length embeddings <= length cs)%nat ->
  get_top_k_chunks argsort embeddings (JList cs) q k
  = get_top_k_chunks argsort embeddings
      (JList (firstn (length embeddings) cs)) q k.
Proof.
  intros Hargsort Hlen. unfold get_top_k_chunks.
  destruct (all_scores embeddings q) as [scores|e] eqn:Hscores;
    [|reflexivity].
  simpl. apply mapM_ext. intros i Hi.
  apply in_rev in Hi. apply slice_from_In in Hi.
  apply (argsort_lt argsort Hargsort) in Hi.
  rewrite (scores_length scores embeddings q Hscores) in Hi.
  unfold pick. simpl. rewrite nth_error_firstn.
  apply Nat.ltb_lt in Hi. now rewrite Hi.
Qed.

(** With more chunks than embeddings, [n] embeddings whose scores are
    computed and the first [n] chunks strings or records, nothing is raised
    and nothing is reported: the call returns entries of positions below [n],
    built from the first [n] chunks alone, whatever the surplus chunks hold
    (they need not even be strings or records). *)
Theorem top_k_ignores_extra_chunks
    (argsort : list float -> list nat) (embeddings : matrix)
    (cs : list json) (q scores : list float) (k : Z) :
  (forall s, is_argsort s (argsort s)) ->
  (length embeddings <= length cs)%nat ->
  Forall (fun c => Spec.is_chunk c = true)
         (firstn (length embeddings) cs) ->
  all_scores embeddings q = Returns scores ->
  exists positions,
    get_top_k_chunks argsort embeddings (JList cs) q k
      = Returns (map (Spec.entry (firstn (length embeddings) cs) scores)
                     positions) /\
    NoDup positions /\
    Forall (fun i => (i < length embeddings)%nat) positions.
Proof.
  intros Hargsort Hlen Hchunks Hscores.
  rewrite (top_k_surplus_chunks_unread argsort embeddings cs q k
             Hargsort Hlen).
  assert (Hn : length (firstn (length embeddings) cs) = length embeddings).
  { rewrite length_firstn. lia. }
  destruct (top_k_ranked argsort embeddings
              (firstn (length embeddings) cs) q scores k
              Hargsort Hn Hchunks Hscores) as (Hret & Hnd & Hlt & _).
  eexists. split; [exact Hret|]. split; assumption.
Qed.

Lemma top_k_ignores_extra_chunks_witness :
  exists positions,
    get_top_k_chunks argsort_stable Demo.embeddings_zero
                     (JList [JStr (lit "A"); JStr (lit "B"); JNone;
                             JInt 7])
                     Demo.query_embedding 5
      = Returns (map (Spec.entry
                        (firstn (length Demo.embeddings_zero)
                           [JStr (lit "A"); JStr (lit "B"); JNone; JInt 7])
                        [nan; 1%float])
                     positions) /\
    NoDup positions /\
    Forall (fun i => (i < length Demo.embeddings_zero)%nat) positions.
Proof.
  apply (top_k_ignores_extra_chunks argsort_stable Demo.embeddings_zero
           [JStr (lit "A"); JStr (lit "B"); JNone; JInt 7]
           Demo.query_embedding [nan; 1%float] 5).
  - exact argsort_stable_ok.
  - simpl. lia.
  - repeat constructor.
  - vm_compute. reflexivity.
Defined.

Lemma cosine_similarity_returns_or_misaligned (a b : list float) :
  (exists s, cosine_similarity a b = Returns s) \/
  cosine_similarity a b = Raises ValueError.
Proof.
  unfold cosine_similarity, Np.dot.
  destruct (Nat.eqb _ _); simpl; eauto.
Qed.

(** One embedding whose length differs from the query vector's makes every
    call raise [ValueError], whatever [k] is and whatever the chunks are: all
    the scores are computed before any is ranked. *)
Theorem top_k_dimension_mismatch
    (argsort : list float -> list nat) (embeddings : matrix)
    (chunks : json) (q : list float) (k : Z) :
  Exists (fun emb => length emb <> length q) embeddings ->
  get_top_k_chunks argsort embeddings chunks q k = Raises ValueError.
Proof.
  intros Hbad. unfold get_top_k_chunks, all_scores.
  rewrite (mapM_raises (fun emb => cosine_similarity q emb) ValueError).
  - reflexivity.
  - intros emb _. apply cosine_similarity_returns_or_misaligned.
  - apply Exists_exists in Hbad. destruct Hbad as (emb & Hin & Hne).
    exists emb. split; [exact Hin|].
    apply cosine_similarity_misaligned. congruence.
Qed.

Lemma top_k_dimension_mismatch_witness :
  get_top_k_chunks argsort_stable [[1; 0]; [1; 0; 0]]%float Demo.chunks
                   Demo.query_embedding 1 = Raises ValueError.
Proof.
  apply (top_k_dimension_mismatch argsort_stable [[1; 0]; [1; 0; 0]]%float
           Demo.chunks Demo.query_embedding 1).
  apply Exists_cons_tl, Exists_cons_hd. simpl. lia.
Defined.

(** A chunks file that is a record without the key "chunks" loads without
    an error and is kept as the record it is; the failure shows at the first
    retrieval that selects a position, which raises [KeyError]. *)
Theorem record_without_chunks_key_fails_late
    (argsort : list float -> list nat) (embeddings : matrix)
    (d : list (str * json)) (q scores : list float) (k : Z) :
  (forall s, is_argsort s (argsort s)) ->
  dict_get (lit "chunks") d = None ->
  all_scores embeddings q = Returns scores ->
  embeddings <> [] ->
  (1 <= k)%Z ->
  load_data (Returns embeddings) (Returns (JDict d))
    = Returns (embeddings, JDict d) /\
  get_top_k_chunks argsort embeddings (JDict d) q k = Raises KeyError.
Proof.
  intros Hargsort Hkey Hscores Hne Hk. split.
  - apply load_data_bare. unfold wraps_chunks, dict_mem. now rewrite Hkey.
  - pose proof (scores_length scores embeddings q Hscores) as Hn.
    pose proof (argsort_length argsort Hargsort scores) as Hidx.
    unfold get_top_k_chunks. rewrite Hscores. simpl.
    destruct (rev (slice_from (- k) (argsort scores))) as [|i rest] eqn:E.
    + exfalso. apply (f_equal (@length nat)) in E.
      rewrite length_rev in E. unfold slice_from in E.
      destruct (Z.ltb_spec (- k) 0); [|lia].
      rewrite length_skipn in E. simpl in E.
      destruct embeddings; [congruence|]. simpl in Hn. lia.
    + reflexivity.
Qed.

Lemma record_without_chunks_key_fails_late_witness :
  load_data (Returns Demo.embeddings) (Returns (JDict Sample.chunks_other_key))
    = Returns (Demo.embeddings, JDict Sample.chunks_other_key) /\
  get_top_k_chunks argsort_stable Demo.embeddings
                   (JDict Sample.chunks_other_key) Demo.query_embedding 5
    = Raises KeyError.
Proof.
  apply (record_without_chunks_key_fails_late argsort_stable Demo.embeddings
           Sample.chunks_other_key Demo.query_embedding Demo.scores 5).
  - exact argsort_stable_ok.
  - vm_compute. reflexivity.
  - vm_compute. reflexivity.
  - discriminate.
  - lia.
Defined.

(** Index alignment: each returned pair puts the text of chunk [i] next to
    the similarity of the query with embedding [i], for one and the same
    corpus position [i]. *)
Theorem top_k_pairs_are_aligned
    (argsort : list float -> list nat) (embeddings : matrix)
    (cs : list json) (q scores : list float) (k : Z) :
  (forall s, is_argsort s (argsort s)) ->
  length cs = length embeddings ->
  Forall (fun c => Spec.is_chunk c = true) cs ->
  all_scores embeddings q = Returns scores ->
  exists positions,
    get_top_k_chunks argsort embeddings (JList cs) q k
      = Returns (map (Spec.entry cs scores) positions) /\
    Forall (fun i =>
              exists c,
                nth_error cs i = Some c /\
                fst (Spec.entry cs scores i) = Spec.text_of c /\
                cosine_similarity q (nth i embeddings [])
                  = Returns (snd (Spec.entry cs scores i)))
           positions.
Proof.
  intros Hargsort Hlen Hchunks Hscores.
  destruct (top_k_ranked argsort embeddings cs q scores k
              Hargsort Hlen Hchunks Hscores) as (Hret & _ & Hlt & _).
  eexists. split; [exact Hret|].
  rewrite Forall_forall in *. intros i Hi. specialize (Hlt i Hi).
  exists (nth i cs JNone). split; [|split].
  - apply nth_error_nth'. lia.
  - reflexivity.
  - unfold Spec.entry, score_at. simpl.
    apply (mapM_nth (fun emb => cosine_similarity q emb) embeddings scores
             [] nan Hscores i Hlt).
Qed.

Lemma top_k_pairs_are_aligned_witness :
  exists positions,
    get_top_k_chunks argsort_stable Demo.embeddings Demo.chunks
                     Demo.query_embedding 2
      = Returns (map (Spec.entry Demo.chunk_list Demo.scores) positions) /\
    Forall (fun i =>
              exists c,
                nth_error Demo.chunk_list i = Some c /\
                fst (Spec.entry Demo.chunk_list Demo.scores i)
                  = Spec.text_of c /\
                cosine_similarity Demo.query_embedding
                                  (nth i Demo.embeddings [])
                  = Returns (snd (Spec.entry Demo.chunk_list Demo.scores i)))
           positions.
Proof.
  apply (top_k_pairs_are_aligned argsort_stable Demo.embeddings
           Demo.chunk_list Demo.query_embedding Demo.scores 2).
  - exact argsort_stable_ok.
  - reflexivity.
  - repeat constructor.
  - vm_compute. reflexivity.
Defined.

Lemma skipn_cons_nth {A} (m : nat) (l : list A) (d : A) :
  (m < length l)%nat -> skipn m l = nth m l d :: skipn (S m) l.
Proof.
  revert l; induction m as [|m IH]; intros [|x l] H; simpl in *; try lia.
  - reflexivity.
  - apply IH. lia.
Qed.

(** Asking for one more result keeps the results already there, in the same
    order, and adds one at the end: for [1 <= k < n] the answer for [k] is
    the answer for [k + 1] without its last entry. *)
Theorem top_k_grows_by_one
    (argsort : list float -> list nat) (embeddings : matrix)
    (cs : list json) (q scores : list float) (k : Z) :
  (forall s, is_argsort s (argsort s)) ->
  length cs = length embeddings ->
  Forall (fun c => Spec.is_chunk c = true) cs ->
  all_scores embeddings q = Returns scores ->
  (1 <= k < Z.of_nat (length embeddings))%Z ->
  exists res next,
    get_top_k_chunks argsort embeddings (JList cs) q k = Returns res /\
    get_top_k_chunks argsort embeddings (JList cs) q (k + 1)
      = Returns (res ++ [next]).
Proof.
  intros Hargsort Hlen Hchunks Hscores Hk.
  pose proof (scores_length scores embeddings q Hscores) as Hn.
  pose proof (argsort_length argsort Hargsort scores) as Hidx.
  rewrite (top_k_returns argsort Hargsort scores embeddings cs q
             Hscores Hlen Hchunks k).
  rewrite (top_k_returns argsort Hargsort scores embeddings cs q
             Hscores Hlen Hchunks (k + 1)).
  rewrite !slice_last by lia.
  set (m := (length (argsort scores) - Z.to_nat (k + 1))%nat).
  replace (length (argsort scores) - Z.to_nat k)%nat with (S m) by lia.
  rewrite (skipn_cons_nth m (argsort scores) 0%nat) by lia.
  simpl rev. rewrite map_app. simpl.
  eexists _, _. split; reflexivity.
Qed.

Lemma top_k_grows_by_one_witness :
  exists res next,
    get_top_k_chunks argsort_stable Demo.embeddings Demo.chunks
                     Demo.query_embedding 2 = Returns res /\
    get_top_k_chunks argsort_stable Demo.embeddings Demo.chunks
                     Demo.query_embedding (2 + 1) = Returns (res ++ [next]).
Proof.
  apply (top_k_grows_by_one argsort_stable Demo.embeddings Demo.chunk_list
           Demo.query_embedding Demo.scores 2).
  - exact argsort_stable_ok.
  - reflexivity.
  - repeat constructor.
  - vm_compute. reflexivity.
  - simpl. lia.
Defined.

(** ** Ties and the choice of the sort *)

Lemma StronglySorted_map_inv {A B} (f : A -> B) (R : B -> B -> Prop)
      (l : list A) :
  StronglySorted R (map f l) ->
  StronglySorted (fun x y => R (f x) (f y)) l.
Proof.
  induction l as [|x l IH]; simpl; intros H; [constructor|].
  apply StronglySorted_inv in H. destruct H as [Hs Hx].
  constructor; [now apply IH|].
  rewrite Forall_map in Hx. exact Hx.
Qed.

(** Two sorted arrangements of the same positions agree when no two of the
    positions tie. *)
Lemma sorted_perm_unique (R : nat -> nat -> Prop) (l1 l2 : list nat) :
  (forall i j, In i l1 -> In j l1 -> R i j -> R j i -> i = j) ->
  Permutation l1 l2 ->
  StronglySorted R l1 -> StronglySorted R l2 ->
  l1 = l2.
Proof.
  revert l2; induction l1 as [|a l1 IH]; intros l2 Hanti Hp Hs1 Hs2.
  - apply Permutation_nil in Hp. now subst.
  - destruct l2 as [|b l2].
    { apply Permutation_sym, Permutation_nil in Hp. discriminate. }
    apply StronglySorted_inv in Hs1, Hs2.
    destruct Hs1 as [Hs1 Ha], Hs2 as [Hs2 Hb].
    rewrite Forall_forall in Ha, Hb.
    assert (Hab : a = b).
    { destruct (Nat.eq_dec a b) as [|Hne]; [assumption|].
      assert (Hina : In a (b :: l2)) by (apply (Permutation_in _ Hp); now left).
      assert (Hinb : In b (a :: l1))
        by (apply (Permutation_in _ (Permutation_sym Hp)); now left).
      destruct Hina as [|Hina]; [congruence|].
      destruct Hinb as [|Hinb]; [congruence|].
      apply Hanti; [now left|now right|now apply Ha|now apply Hb]. }
    subst b. f_equal. apply Permutation_cons_inv in Hp.
    apply IH; auto. intros i j Hi Hj. apply Hanti; now right.
Qed.

(** NumPy leaves open which of two tied positions comes first, and only
    that: when no two scores tie (no two are equal numbers, no two are NaN),
    every sort that meets [np.argsort]'s contract gives the same result. *)
Theorem top_k_unique_without_ties
    (argsort1 argsort2 : list float -> list nat) (embeddings : matrix)
    (chunks : json) (q scores : list float) (k : Z) :
  (forall s, is_argsort s (argsort1 s)) ->
  (forall s, is_argsort s (argsort2 s)) ->
  all_scores embeddings q = Returns scores ->
  (forall i j,
     (i < length scores)%nat -> (j < length scores)%nat ->
     Np.le (score_at scores i) (score_at scores j) = true ->
     Np.le (score_at scores j) (score_at scores i) = true -> i = j) ->
  get_top_k_chunks argsort1 embeddings chunks q k
  = get_top_k_chunks argsort2 embeddings chunks q k.
Proof.
  intros H1 H2 Hscores Hties. unfold get_top_k_chunks.
  rewrite Hscores. simpl.
  replace (argsort2 scores) with (argsort1 scores); [reflexivity|].
  destruct (H1 scores) as [Hp1 Hs1], (H2 scores) as [Hp2 Hs2].
  apply Sorted_StronglySorted in Hs1, Hs2; try exact np_le_Transitive.
  apply StronglySorted_map_inv in Hs1, Hs2.
  apply (sorted_perm_unique
           (fun i j => Np.le (score_at scores i) (score_at scores j) = true));
    try assumption.
  - intros i j Hi Hj. apply Hties.
    + now apply (argsort_lt argsort1 H1).
    + now apply (argsort_lt argsort1 H1).
  - apply (perm_trans Hp1). now apply Permutation_sym.
Qed.

Lemma insert_idx_after_perm (scores : list float) (i : nat) (l : list nat) :
  Permutation (insert_idx_after scores i l) (i :: l).
Proof.
  induction l as [|j l IH]; simpl; [apply Permutation_refl|].
  destruct (Np.le _ _); [|apply Permutation_refl].
  apply (perm_trans (perm_skip j IH)). apply perm_swap.
Qed.

Lemma insert_idx_after_sorted (scores : list float) (i : nat) (l : list nat) :
  Sorted (fun x y => Np.le x y = true) (map (score_at scores) l) ->
  Sorted (fun x y => Np.le x y = true)
         (map (score_at scores) (insert_idx_after scores i l)).
Proof.
  induction l as [|j l IH]; simpl; intros Hs.
  - repeat constructor.
  - destruct (Np.le (score_at scores j) (score_at scores i)) eqn:Hle.
    + apply Sorted_inv in Hs. destruct Hs as [Hs Hhd].
      simpl. constructor; [now apply IH|].
      destruct l as [|j' l]; simpl.
      * constructor. exact Hle.
      * destruct (Np.le (score_at scores j') (score_at scores i)); simpl.
        -- constructor. now inversion Hhd.
        -- constructor. exact Hle.
    + simpl. constructor; [exact Hs|]. constructor.
      destruct (FloatOrder.np_le_total (score_at scores i) (score_at scores j));
        congruence.
Qed.

Lemma argsort_mirror_ok (scores : list float) :
  is_argsort scores (argsort_mirror scores).
Proof.
  unfold is_argsort, argsort_mirror.
  generalize (seq 0 (length scores)) as l.
  induction l as [|i l [IHp IHs]]; simpl.
  - split; constructor.
  - split.
    + apply (perm_trans (insert_idx_after_perm scores i _)).
      now apply perm_skip.
    + now apply insert_idx_after_sorted.
Qed.

Lemma top_k_unique_without_ties_witness :
  get_top_k_chunks argsort_stable Demo.embeddings Demo.chunks
                   Demo.query_embedding 2
  = get_top_k_chunks argsort_mirror Demo.embeddings Demo.chunks
                     Demo.query_embedding 2.
Proof.
  apply (top_k_unique_without_ties argsort_stable argsort_mirror
           Demo.embeddings Demo.chunks Demo.query_embedding Demo.scores 2).
  - exact argsort_stable_ok.
  - exact argsort_mirror_ok.
  - vm_compute. reflexivity.
  - intros [|[|[|i]]] [|[|[|j]]] Hi Hj; simpl in Hi, Hj; try lia;
      try reflexivity; vm_compute; discriminate.
Defined.

(** With a tie the two sorts disagree on the top match: of two chunks with
    the same embedding, one sort returns the second, the other the first. *)
Example top_1_depends_on_sort_with_ties :
  get_top_k_chunks argsort_stable [[1; 0]; [1; 0]]%float Demo.chunks_zero
                   Demo.query_embedding 1
    = Returns [(JStr (lit "B"), 1%float)] /\
  get_top_k_chunks argsort_mirror [[1; 0]; [1; 0]]%float Demo.chunks_zero
                   Demo.query_embedding 1
    = Returns [(JStr (lit "A"), 1%float)].
Proof. split; vm_compute; reflexivity. Qed.

(** ** More on the generation client *)

Lemma ask_gemini_post_raises
    (key : str) (post : str -> json -> outcome response) (prompt : str)
    (e : exn) (w : world) :
  post (gemini_endpoint ++ key) (request_data prompt) = Raises e ->
  ask_gemini (Some key) post prompt w = (Raises e, posted key prompt w).
Proof.
  intros Hpost. unfold ask_gemini, bindM, liftM, logM, retM, request_url.
  cbv beta iota zeta. rewrite Hpost. reflexivity.
Qed.

Lemma ask_gemini_world
    (key : str) (post : str -> json -> outcome response) (prompt : str)
    (w : world) :
  snd (ask_gemini (Some key) post prompt w) = posted key prompt w.
Proof.
  unfold ask_gemini, bindM, liftM, logM, retM, request_url.
  cbv beta iota zeta.
  destruct (post _ _) as [resp|e]; [|reflexivity].
  destruct (status_code resp =? 200)%Z; [|reflexivity].
  destruct (json_body resp); reflexivity.
Qed.

(** One call of [ask_gemini] sends one request and no more, whatever comes
    back (an answer, an error status, a malformed body, an exception): there
    is no retry. The request goes to the endpoint with the key appended and
    carries the prompt unchanged as [contents[0].parts[0].text]; the chat
    history is not touched. *)
Theorem ask_gemini_sends_one_request
    (key : str) (post : str -> json -> outcome response) (prompt : str)
    (w : world) :
  exists result,
    ask_gemini (Some key) post prompt w
    = (result,
       mkWorld (chat_history w)
         (calls w ++
          [PostCall (gemini_endpoint ++ key)
             (JDict [(lit "contents",
                JList [JDict [(lit "parts",
                  JList [JDict [(lit "text", JStr prompt)]])]])])])).
Proof.
  exists (fst (ask_gemini (Some key) post prompt w)).
  rewrite (surjective_pairing (ask_gemini (Some key) post prompt w)) at 1.
  now rewrite ask_gemini_world.
Qed.

Lemma ask_gemini_text_witness :
  ask_gemini (Some (lit "k")) Sample.post_ok Demo.query Demo.world0
  = (Returns Sample.generated, posted (lit "k") Demo.query Demo.world0).
Proof.
  apply (ask_gemini_text (lit "k") Sample.post_ok Demo.query
           (mkResponse 200 (Returns Sample.body_ok)) Sample.body_ok
           Sample.generated Demo.world0).
  - reflexivity.
  - reflexivity.
  - reflexivity.
  - vm_compute. reflexivity.
Defined.

(** ** More on the script *)

Lemma containsb_split (needle hay before after : str) :
  hay = before ++ needle ++ after -> containsb needle hay = true.
Proof. intros ->. apply containsb_app. Qed.

Lemma join_In (sep : str) (parts : list str) (p : str) :
  In p parts -> exists before after, join sep parts = before ++ p ++ after.
Proof.
  induction parts as [|x parts IH]; simpl; intros Hin; [contradiction|].
  destruct Hin as [->|Hin].
  - destruct parts as [|y parts].
    + exists [], []. now rewrite app_nil_r.
    + exists [], (sep ++ join sep (y :: parts)). reflexivity.
  - destruct (IH Hin) as (b & a & E).
    destruct parts as [|y parts]; [contradiction|].
    exists (x ++ sep ++ b), a. rewrite E. now rewrite <- !app_assoc.
Qed.

Lemma enumerate_In {A} (l : list A) (x : A) :
  In x l -> exists i, In (i, x) (enumerate l).
Proof.
  unfold enumerate. generalize 0%nat as start.
  induction l as [|y l IH]; simpl; intros start Hin; [contradiction|].
  destruct Hin as [->|Hin].
  - exists start. now left.
  - destruct (IH (S start) Hin) as [i Hi]. exists i. now right.
Qed.

(** What is sent to the model: the prompt contains the query exactly as
    typed, and the text of every retrieved chunk. *)
Theorem prompt_carries_query_and_chunks
    (format_4f : float -> str) (repr : json -> str)
    (top_chunks : list (json * float)) (query : str) :
  containsb query
    (make_prompt (make_context format_4f repr top_chunks) query) = true /\
  forall chunk score,
    In (chunk, score) top_chunks ->
    containsb (format_value repr chunk)
      (make_prompt (make_context format_4f repr top_chunks) query) = true.
Proof.
  split.
  - unfold make_prompt.
    eapply (containsb_split query _
              (lit "You are an expert Java programming tutor. Answer the following question based ONLY on the provided context from the Java textbook."
               ++ nl ++ nl ++ lit "CONTEXT FROM JAVA TEXTBOOK:" ++ nl
               ++ make_context format_4f repr top_chunks
               ++ nl ++ nl ++ lit "QUESTION: ")).
    rewrite <- !app_assoc. reflexivity.
  - intros chunk score Hin.
    destruct (enumerate_In top_chunks (chunk, score) Hin) as [i Hi].
    apply (in_map (context_entry format_4f repr)) in Hi.
    destruct (join_In (nl ++ nl ++ lit "---" ++ nl ++ nl) _ _ Hi)
      as (b & a & E).
    unfold make_prompt, make_context. rewrite E.
    unfold context_entry.
    eapply (containsb_split _ _
              (lit "You are an expert Java programming tutor. Answer the following question based ONLY on the provided context from the Java textbook."
               ++ nl ++ nl ++ lit "CONTEXT FROM JAVA TEXTBOOK:" ++ nl ++ b
               ++ lit "[Context " ++ str_of_int (Z.of_nat (i + 1))
               ++ lit " - Similarity: " ++ format_4f score ++ lit "]" ++ nl)).
    rewrite <- !app_assoc. reflexivity.
Qed.

Section RunFacts.

Variable api_key : option str.
Variable encode : list str -> matrix.
Variable format_4f : float -> str.
Variable repr : json -> str.
Variable argsort : list float -> list nat.
Variable embeddings : matrix.
Variable chunks : json.

(** What a call of the client can do to the world, with or without a key. *)
Lemma ask_gemini_effect
    (post : str -> json -> outcome response) (prompt : str) (w : world) :
  chat_history (snd (ask_gemini api_key post prompt w)) = chat_history w /\
  exists new,
    calls (snd (ask_gemini api_key post prompt w)) = calls w ++ new /\
    (length new <= 1)%nat.
Proof.
  split.
  - apply (ask_gemini_history api_key post prompt w _
             (fst (ask_gemini api_key post prompt w))).
    apply surjective_pairing.
  - destruct api_key as [key|].
    + rewrite ask_gemini_world. simpl. eexists. split; [reflexivity|].
      simpl. lia.
    + exists []. unfold ask_gemini, bindM, liftM, request_url. simpl.
      split; [now rewrite app_nil_r|lia].
Qed.

(** What a query cycle can do to the world, however it ends. *)
Lemma query_cycle_effect
    (post : str -> json -> outcome response) (query : str) (w : world) :
  let r := query_cycle api_key encode post format_4f repr argsort embeddings
                       chunks query w in
  (exists rest,
     calls (snd r) = calls w ++ EncodeCall [query] :: rest /\
     (length rest <= 1)%nat) /\
  ((fst r = Returns tt /\
    exists answer context,
      chat_history (snd r) = Some (history w ++ [mkChat query answer context]))
   \/
   ((exists e, fst r = Raises e) /\ chat_history (snd r) = chat_history w)).
Proof.
  unfold query_cycle, bindM, liftM, logM. cbv beta iota zeta.
  destruct (encode [query]) as [|row rows].
  { simpl. split; [exists []; split; [reflexivity|simpl; lia]|].
    right. split; [now exists IndexError|reflexivity]. }
  destruct (get_top_k_chunks argsort embeddings chunks row 5)
    as [top_chunks|e].
  2:{ simpl. split; [exists []; split; [reflexivity|simpl; lia]|].
      right. split; [now exists e|reflexivity]. }
  match goal with
  | |- context [ask_gemini api_key post ?p ?w1] =>
      destruct (ask_gemini_effect post p w1) as (Hh & new & Hc & Hlen);
      destruct (ask_gemini api_key post p w1) as [[answer|e] w2]
  end; simpl in *.
  - split.
    + exists new. split; [|exact Hlen].
      rewrite Hc, <- app_assoc. reflexivity.
    + left. split; [reflexivity|]. exists answer, (make_context format_4f repr top_chunks).
      unfold history. rewrite Hh. reflexivity.
  - split.
    + exists new. split; [|exact Hlen].
      rewrite Hc, <- app_assoc. reflexivity.
    + right. split; [now exists e|exact Hh].
Qed.

(** What one run of the script can do to the world, on any input. *)
Lemma script_effect
    (post : str -> json -> outcome response) (submitted : bool)
    (query : str) (w : world) :
  let r := script api_key encode post format_4f repr argsort embeddings
                  chunks submitted query w in
  (exists new, calls (snd r) = calls w ++ new /\ (length new <= 2)%nat) /\
  ((history (snd r) = history w) \/
   ((exists page, fst r = Returns page) /\
    submitted = true /\
    exists answer context,
      history (snd r) = history w ++ [mkChat query answer context])).
Proof.
  cbv zeta.
  destruct api_key as [[|c key]|] eqn:Hkey.
  1,3: unfold script; simpl; split;
    [exists []; split; [now rewrite app_nil_r|simpl; lia]|now left].
  unfold script, bindM, init_history. cbv beta iota.
  destruct (submitted && truthy (strip query)) eqn:Hrun.
  - pose proof (query_cycle_effect post query
                  (mkWorld (Some (history w)) (calls w))) as Heff.
    rewrite Hkey in Heff. cbv zeta in Heff. revert Heff.
    match goal with
    | |- context [query_cycle ?k encode post format_4f repr argsort
                              embeddings chunks query ?w0] =>
        destruct (query_cycle k encode post format_4f repr argsort
                              embeddings chunks query w0) as [[[]|e] w1]
    end; simpl; intros ((rest & Hc & Hlen) & Hh).
    + split.
      * exists (EncodeCall [query] :: rest). split; [exact Hc|simpl; lia].
      * destruct Hh as [(_ & answer & context & Hh)|((e & He) & _)];
          [|discriminate].
        right. split; [eexists; reflexivity|].
        split; [now apply andb_true_iff in Hrun|].
        exists answer, context. unfold history at 1. now rewrite Hh.
    + split.
      * exists (EncodeCall [query] :: rest). split; [exact Hc|simpl; lia].
      * destruct Hh as [(He & _)|(_ & Hh)]; [discriminate|].
        left. unfold history at 1. now rewrite Hh.
  - simpl. split;
      [exists []; split; [now rewrite app_nil_r|simpl; lia]|now left].
Qed.

End RunFacts.

(** The chat history is append-only under every run of the script, whatever
    the input and however the run ends: a run leaves the recorded turns as
    they are and adds at most one turn, whose question is the query; a run
    that ends in an exception adds none; and a run makes at most two external
    calls. *)
Theorem script_history_append_only
    (api_key : option str) (encode : list str -> matrix)
    (post : str -> json -> outcome response)
    (format_4f : float -> str) (repr : json -> str)
    (argsort : list float -> list nat) (embeddings : matrix) (chunks : json)
    (submitted : bool) (query : str) (w : world) :
  let r := script api_key encode post format_4f repr argsort embeddings
                  chunks submitted query w in
  (history (snd r) = history w \/
   exists answer context,
     history (snd r) = history w ++ [mkChat query answer context]) /\
  (forall e, fst r = Raises e -> history (snd r) = history w) /\
  exists new, calls (snd r) = calls w ++ new /\ (length new <= 2)%nat.
Proof.
  intros r.
  destruct (script_effect api_key encode format_4f repr argsort embeddings
              chunks post submitted query w) as (Hcalls & Hhist).
  fold r in Hcalls, Hhist.
  split; [|split; [|exact Hcalls]].
  - destruct Hhist as [H|(_ & _ & H)]; [now left|now right].
  - intros e He. destruct Hhist as [H|((page & Hp) & _)]; [exact H|].
    congruence.
Qed.

(** Over a whole session, one run per interaction: the turns recorded at the
    start stay at the front of the history, at most one turn is added per
    interaction, and the question of every added turn is the query of a
    submitted interaction. *)
Theorem session_history_grows_by_appending
    (api_key : option str) (encode : list str -> matrix)
    (format_4f : float -> str) (repr : json -> str)
    (argsort : list float -> list nat) (embeddings : matrix) (chunks : json)
    (inputs : list interaction) (w : world) :
  exists added,
    history (run_session api_key encode format_4f repr argsort embeddings
                         chunks inputs w)
      = history w ++ added /\
    (length added <= length inputs)%nat /\
    Forall (fun turn =>
              exists i,
                In i inputs /\ submitted_of i = true /\
                question turn = query_of i)
           added.
Proof.
  revert w; induction inputs as [|i inputs IH]; intros w; simpl.
  - exists []. rewrite app_nil_r. repeat split; auto.
  - destruct (script_effect api_key encode format_4f repr argsort embeddings
                chunks (post_of i) (submitted_of i) (query_of i) w)
      as (_ & Hhist).
    cbv zeta in Hhist.
    destruct (IH (snd (script api_key encode (post_of i) format_4f repr
                         argsort embeddings chunks (submitted_of i)
                         (query_of i) w)))
      as (added & Heq & Hlen & Hq).
    assert (Hq' : Forall (fun turn =>
                    exists i0, (i = i0 \/ In i0 inputs) /\
                               submitted_of i0 = true /\
                               question turn = query_of i0) added).
    { rewrite Forall_forall in *. intros t Ht.
      destruct (Hq t Ht) as (i0 & Hin & Hs & Hqq). exists i0. auto. }
    destruct Hhist as [H|(_ & Hsub & answer & context & H)];
      rewrite H in Heq.
    + exists added. repeat split; auto.
    + exists (mkChat (query_of i) answer context :: added).
      rewrite Heq, <- app_assoc. simpl. repeat split; auto with arith.
      constructor; [|exact Hq']. exists i. auto.
Qed.

(** The five interactions of [Sample.inputs]: a successful question, a blank
    one, one that times out, a page load without submission and a question
    answered with status 500 leave two turns, the first and the last. *)
Example session_scenario :
  map question
      (history (run_session Demo.key Demo.encode Demo.format_4f Demo.repr
                            argsort_stable Demo.embeddings Demo.chunks
                            Sample.inputs Demo.world0))
    = [Demo.query; Demo.query] /\
  map answer
      (history (run_session Demo.key Demo.encode Demo.format_4f Demo.repr
                            argsort_stable Demo.embeddings Demo.chunks
                            Sample.inputs Demo.world0))
    = [Sample.generated; JStr (error_status 500)].
Proof. split; vm_compute; reflexivity. Qed.

Lemma script_entering_cycle
    (c : N) (key : str) (encode : list str -> matrix)
    (post : str -> json -> outcome response)
    (format_4f : float -> str) (repr : json -> str)
    (argsort : list float -> list nat) (embeddings : matrix) (chunks : json)
    (query : str) (w : world) :
  truthy (strip query) = true ->
  script (Some (c :: key)) encode post format_4f repr argsort embeddings
         chunks true query w
  = (let (o, w') :=
       query_cycle (Some (c :: key)) encode post format_4f repr argsort
                   embeddings chunks query
                   (mkWorld (Some (history w)) (calls w)) in
     match o with
     | Returns _ =>
         (Returns (page_header ++ render_history repr (history w')
                     ++ page_footer), w')
     | Raises e => (Raises e, w')
     end).
Proof. intros Hq. unfold script. rewrite Hq. reflexivity. Qed.

(** A failure of the generation call that is not an error status is not
    turned into an answer: when the request raises (time-out, connection
    failure) or a 200 response has a body that is not JSON, the exception
    ends the run, after the embedder and the API were called, and no turn is
    recorded. *)
Theorem generation_exception_aborts_run
    (key : str) (encode : list str -> matrix)
    (post : str -> json -> outcome response)
    (format_4f : float -> str) (repr : json -> str)
    (argsort : list float -> list nat) (embeddings : matrix) (chunks : json)
    (query : str) (w : world) (row : list float) (rows : matrix)
    (top_chunks : list (json * float)) (e : exn) :
  truthy key = true ->
  truthy (strip query) = true ->
  encode [query] = row :: rows ->
  get_top_k_chunks argsort embeddings chunks row 5 = Returns top_chunks ->
  let prompt := make_prompt (make_context format_4f repr top_chunks) query in
  (post (gemini_endpoint ++ key) (request_data prompt) = Raises e \/
   exists resp,
     post (gemini_endpoint ++ key) (request_data prompt) = Returns resp /\
     status_code resp = 200%Z /\ json_body resp = Raises e) ->
  exists w',
    script (Some key) encode post format_4f repr argsort embeddings chunks
           true query w = (Raises e, w') /\
    history w' = history w /\
    calls w' = calls w ++
      [EncodeCall [query];
       PostCall (gemini_endpoint ++ key) (request_data prompt)].
Proof.
  intros Hset Hquery Hrow Htop prompt Hfail.
  destruct key as [|c key]; [discriminate|].
  rewrite script_entering_cycle by exact Hquery.
  unfold query_cycle, bindM, liftM, logM. cbv beta iota zeta.
  rewrite Hrow, Htop. fold prompt.
  assert (Hask : forall w0,
            ask_gemini (Some (c :: key)) post prompt w0
            = (Raises e, posted (c :: key) prompt w0)).
  { intros w0. destruct Hfail as [Hp|(resp & Hp & Hs & Hb)].
    - now apply ask_gemini_post_raises.
    - now apply (ask_gemini_body_not_json (c :: key) post prompt resp). }
  rewrite Hask. eexists. split; [reflexivity|]. simpl.
  split; [reflexivity|]. now rewrite <- app_assoc.
Qed.

Lemma generation_exception_aborts_run_witness :
  exists w',
    script (Some (lit "k")) Demo.encode Sample.post_timeout Demo.format_4f
           Demo.repr argsort_stable Demo.embeddings Demo.chunks true
           Demo.query Demo.world0 = (Raises RequestException, w') /\
    history w' = history Demo.world0 /\
    calls w' = calls Demo.world0 ++
      [EncodeCall [Demo.query];
       PostCall (gemini_endpoint ++ lit "k")
         (request_data
            (make_prompt
               (make_context Demo.format_4f Demo.repr
                  [(JStr (lit "A"), 1%float);
                   (JStr (lit "C"), (1 / sqrt 2)%float);
                   (JStr (lit "B"), 0%float)])
               Demo.query))].
Proof.
  apply (generation_exception_aborts_run (lit "k") Demo.encode
           Sample.post_timeout Demo.format_4f Demo.repr argsort_stable
           Demo.embeddings Demo.chunks Demo.query Demo.world0
           Demo.query_embedding [] _ RequestException).
  - reflexivity.
  - vm_compute. reflexivity.
  - reflexivity.
  - vm_compute. reflexivity.
  - left. reflexivity.
Defined.

Lemma script_cycle_calls
    (c : N) (key : str) (encode : list str -> matrix)
    (post : str -> json -> outcome response)
    (format_4f : float -> str) (repr : json -> str)
    (argsort : list float -> list nat) (embeddings : matrix) (chunks : json)
    (query : str) (w : world) :
  truthy (strip query) = true ->
  exists rest,
    calls (snd (script (Some (c :: key)) encode post format_4f repr argsort
                       embeddings chunks true query w))
      = calls w ++ EncodeCall [query] :: rest /\
    (length rest <= 1)%nat.
Proof.
  intros Hquery.
  rewrite script_entering_cycle by exact Hquery.
  destruct (query_cycle_effect (Some (c :: key)) encode format_4f repr
              argsort embeddings chunks post query
              (mkWorld (Some (history w)) (calls w))) as (Hcalls & _).
  cbv zeta in Hcalls. revert Hcalls.
  match goal with
  | |- context [query_cycle ?k encode post format_4f repr argsort
                            embeddings chunks query ?w0] =>
      destruct (query_cycle k encode post format_4f repr argsort
                            embeddings chunks query w0) as [[[]|e] w1]
  end; simpl; intros H; exact H.
Qed.

(** When the cycle is entered, the embedder is the first collaborator called
    and it gets the query exactly as typed (the stripped text only decides
    whether the cycle runs), however the run goes on. *)
Theorem cycle_embeds_query_as_typed
    (key : str) (encode : list str -> matrix)
    (post : str -> json -> outcome response)
    (format_4f : float -> str) (repr : json -> str)
    (argsort : list float -> list nat) (embeddings : matrix) (chunks : json)
    (query : str) (w : world) :
  truthy key = true ->
  truthy (strip query) = true ->
  exists rest,
    calls (snd (script (Some key) encode post format_4f repr argsort
                       embeddings chunks true query w))
      = calls w ++ EncodeCall [query] :: rest /\
    (length rest <= 1)%nat.
Proof.
  intros Hset Hquery.
  destruct key as [|c key]; [discriminate|].
  now apply script_cycle_calls.
Qed.

Lemma cycle_embeds_query_as_typed_witness :
  exists rest,
    calls (snd (script (Some (lit "k")) Demo.encode Demo.post_500
                       Demo.format_4f Demo.repr argsort_stable
                       Demo.embeddings Demo.chunks true
                       (32%N :: Demo.query ++ [10%N]) Demo.world0))
      = calls Demo.world0
          ++ EncodeCall [32%N :: Demo.query ++ [10%N]] :: rest /\
    (length rest <= 1)%nat.
Proof.
  apply (cycle_embeds_query_as_typed (lit "k") Demo.encode Demo.post_500
           Demo.format_4f Demo.repr argsort_stable Demo.embeddings
           Demo.chunks (32%N :: Demo.query ++ [10%N]) Demo.world0).
  - reflexivity.
  - vm_compute. reflexivity.
Defined.

Lemma get_top_k_chunks_no_embeddings
    (argsort : list float -> list nat) (chunks : json) (q : list float)
    (k : Z) :
  (forall s, is_argsort s (argsort s)) ->
  get_top_k_chunks argsort [] chunks q k = Returns [].
Proof.
  intros Hargsort. unfold get_top_k_chunks. simpl.
  destruct (Hargsort []) as [Hp _]. simpl in Hp.
  apply Permutation_sym, Permutation_nil in Hp. rewrite Hp.
  unfold slice_from. rewrite skipn_nil. reflexivity.
Qed.

(** An empty corpus does not stop the cycle: the model is still asked, with a
    prompt whose context part is empty. *)
Theorem empty_corpus_still_asks_model
    (key : str) (encode : list str -> matrix)
    (post : str -> json -> outcome response)
    (format_4f : float -> str) (repr : json -> str)
    (argsort : list float -> list nat) (chunks : json)
    (query : str) (w : world) (row : list float) (rows : matrix) :
  (forall s, is_argsort s (argsort s)) ->
  truthy key = true ->
  truthy (strip query) = true ->
  encode [query] = row :: rows ->
  calls (snd (script (Some key) encode post format_4f repr argsort []
                     chunks true query w))
    = calls w ++
      [EncodeCall [query];
       PostCall (gemini_endpoint ++ key)
                (request_data (make_prompt [] query))].
Proof.
  intros Hargsort Hset Hquery Hrow.
  destruct key as [|c key]; [discriminate|].
  rewrite script_entering_cycle by exact Hquery.
  unfold query_cycle, bindM, liftM, logM. cbv beta iota zeta.
  rewrite Hrow, (get_top_k_chunks_no_embeddings argsort chunks row 5 Hargsort).
  change (make_context format_4f repr []) with (@nil N).
  match goal with
  | |- context [ask_gemini ?k post ?p ?w0] =>
      assert (Hw : snd (ask_gemini k post p w0) = posted (c :: key) p w0)
        by apply ask_gemini_world;
      revert Hw;
      destruct (ask_gemini k post p w0) as [[answer|e] w1]
  end; simpl; intros ->; simpl; now rewrite <- app_assoc.
Qed.

Lemma empty_corpus_still_asks_model_witness :
  calls (snd (script (Some (lit "k")) Demo.encode Sample.post_ok
                     Demo.format_4f Demo.repr argsort_stable []
                     (JList []) true Demo.query Demo.world0))
    = calls Demo.world0 ++
      [EncodeCall [Demo.query];
       PostCall (gemini_endpoint ++ lit "k")
                (request_data (make_prompt [] Demo.query))].
Proof.
  apply (empty_corpus_still_asks_model (lit "k") Demo.encode Sample.post_ok
           Demo.format_4f Demo.repr argsort_stable (JList []) Demo.query
           Demo.world0 Demo.query_embedding []).
  - exact argsort_stable_ok.
  - reflexivity.
  - vm_compute. reflexivity.
  - reflexivity.
Defined.

(** A NaN score is not ranked unpredictably: in every result the entries
    scored NaN come first. Once an entry with a number as score appears, no
    entry after it is scored NaN. *)
Theorem nan_scores_rank_first
    (argsort : list float -> list nat) (embeddings : matrix)
    (cs : list json) (q scores : list float) (k : Z) :
  (forall s, is_argsort s (argsort s)) ->
  length cs = length embeddings ->
  Forall (fun c => Spec.is_chunk c = true) cs ->
  all_scores embeddings q = Returns scores ->
  exists res,
    get_top_k_chunks argsort embeddings (JList cs) q k = Returns res /\
    forall before x after,
      map snd res = before ++ x :: after ->
      is_nan x = false ->
      Forall (fun y => is_nan y = false) after.
Proof.
  intros Hargsort Hlen Hchunks Hscores.
  eexists. split.
  { exact (top_k_returns argsort Hargsort scores embeddings cs q
             Hscores Hlen Hchunks k). }
  intros before x after Hsplit Hx.
  rewrite selected_scores in Hsplit.
  pose proof (selected_scores_ranked argsort Hargsort scores k) as Hs.
  rewrite Hsplit in Hs.
  change (before ++ x :: after) with (before ++ [x] ++ after) in Hs.
  rewrite app_assoc in Hs.
  rewrite Forall_forall. intros y Hy.
  assert (Hle : Np.le y x = true).
  { apply (StronglySorted_app_inv _ _ _ Hs x y); [|exact Hy].
    apply in_or_app. right. now left. }
  destruct (is_nan y) eqn:Hnan; [|reflexivity].
  rewrite (FloatOrder.np_le_nan_l y x Hnan) in Hle. congruence.
Qed.

Lemma nan_scores_rank_first_witness :
  exists res,
    get_top_k_chunks argsort_stable Demo.embeddings_zero Demo.chunks_zero
                     Demo.query_embedding 2 = Returns res /\
    forall before x after,
      map snd res = before ++ x :: after ->
      is_nan x = false ->
      Forall (fun y => is_nan y = false) after.
Proof.
  apply (nan_scores_rank_first argsort_stable Demo.embeddings_zero
           Demo.chunk_list_zero Demo.query_embedding [nan; 1%float] 2).
  - exact argsort_stable_ok.
  - reflexivity.
  - repeat constructor.
  - vm_compute. reflexivity.
Defined.

(** When the script reaches out: a run calls an external collaborator exactly
    when the credential is set, the form was submitted and the query has a
    character that is not whitespace. In every other run neither the embedder
    nor the generation API is called. *)
Theorem external_calls_iff_cycle_entered
    (api_key : option str) (encode : list str -> matrix)
    (post : str -> json -> outcome response)
    (format_4f : float -> str) (repr : json -> str)
    (argsort : list float -> list nat) (embeddings : matrix) (chunks : json)
    (submitted : bool) (query : str) (w : world) :
  calls (snd (script api_key encode post format_4f repr argsort embeddings
                     chunks submitted query w)) <> calls w
  <->
  (exists key, api_key = Some key /\ truthy key = true) /\
  submitted = true /\
  ~ Spec.blank query.
Proof.
  destruct (truthy (strip query)) eqn:Hq.
  - assert (Hnb : ~ Spec.blank query).
    { intros Hb. apply strip_blank_iff in Hb. congruence. }
    destruct api_key as [[|c key]|]; [| |];
      try (split; [intros H; exfalso; apply H; reflexivity
                  |intros ((k & Hk & Ht) & _); (discriminate || (inversion Hk; subst; discriminate))]).
    destruct submitted.
    + split.
      * intros _. split; [exists (c :: key); auto|auto].
      * intros _.
        destruct (script_cycle_calls c key encode post format_4f repr
                    argsort embeddings chunks query w Hq) as (rest & Hc & _).
        intros H.
        assert (E : calls w ++ EncodeCall [query] :: rest = calls w)
          by (rewrite <- Hc; exact H).
        apply (f_equal (@length call)) in E.
        rewrite length_app in E. simpl in E. lia.
    + split; [intros H; exfalso; apply H; reflexivity|].
      intros (_ & Hs & _). discriminate.
  - assert (Hsame : calls (snd (script api_key encode post format_4f repr
                       argsort embeddings chunks submitted query w))
                    = calls w).
    { unfold script. rewrite Hq, andb_false_r.
      destruct api_key as [[|c key]|]; reflexivity. }
    split; [intros H; contradiction|].
    intros (_ & _ & Hnb). exfalso. apply Hnb. now apply strip_blank_iff.
Qed.
